(** * Finite automata, regular expressions and regular grammars

    A shallow embedding of the Python package [src/regular]:
    - [regular_expression.py]: the expression tree, its smart constructors
      and its rendering;
    - [fsa_base.py], [automata/dfa.py], [automata/nfa.py] and the older
      monolithic [fsa.py]: deterministic and non-deterministic automata;
    - [regex_convertible.py] and [fsa.py]: state elimination ([to_regex]);
    - [regular_grammar.py]: grammar to automaton conversion.

    Python dictionaries are association lists with unique keys in insertion
    order; Python sets of state names are lists (the iteration order of a
    Python set is unspecified, so every statement below is about an
    arbitrary order).  Exceptions are the constructors of [py_error]. *)

From Stdlib Require Import String Ascii List Bool Arith Lia.
Import ListNotations.
Open Scope string_scope.

(** ** Exceptions and the error monad *)

Inductive py_error : Type :=
  | InvalidInputSymbol (pos : nat)   (* ValueError "invalid input symbol at pos i" *)
  | SymbolNotInAlphabet              (* ValueError "symbol ... not in alphabet" *)
  | UnknownState                     (* ValueError "Unknown state" *)
  | NoTransition                     (* ValueError "No transition from state ..." *)
  | KeyError (key : string)
  | NameError (name : string)
  | AttributeError (name : string)
  | StopIteration.

Inductive result (A : Type) : Type :=
  | Ok (a : A)
  | Err (e : py_error).
Arguments Ok {A} a.
Arguments Err {A} e.

Definition bind {A B : Type} (m : result A) (f : A -> result B) : result B :=
  match m with
  | Ok a => f a
  | Err e => Err e
  end.

Notation "x <- m ;; k" := (bind m (fun x => k))
  (at level 61, m at next level, right associativity).
Notation "' pat <- m ;; k" := (bind m (fun pat => k))
  (at level 61, pat pattern, m at next level, right associativity).

(** A [for] loop over [xs] whose body may raise. *)
Fixpoint fold_result {A B : Type} (f : A -> B -> result A) (xs : list B) (acc : A) : result A :=
  match xs with
  | [] => Ok acc
  | x :: xs' => acc' <- f acc x ;; fold_result f xs' acc'
  end.

(** ** Python dictionaries with string keys and sets of strings *)

Module Dict.

Fixpoint get {V : Type} (k : string) (d : list (string * V)) : option V :=
  match d with
  | [] => None
  | (k', v) :: d' => if String.eqb k k' then Some v else get k d'
  end.

(** [d[k] = v]: overwrite in place, or append a new key at the end. *)
Fixpoint set {V : Type} (k : string) (v : V) (d : list (string * V))
  : list (string * V) :=
  match d with
  | [] => [(k, v)]
  | (k', v') :: d' => if String.eqb k k' then (k, v) :: d' else (k', v') :: set k v d'
  end.

(** [d[k]] raising [KeyError]. *)
Definition index {V : Type} (d : list (string * V)) (k : string) : result V :=
  match get k d with
  | Some v => Ok v
  | None => Err (KeyError k)
  end.

Definition keys {V : Type} (d : list (string * V)) : list string := map fst d.

End Dict.

Definition mem (x : string) (s : list string) : bool := existsb (String.eqb x) s.

(** [s.add(x)] *)
Definition set_add (x : string) (s : list string) : list string :=
  if mem x s then s else (s ++ [x])%list.

(** [s.update(t)] *)
Definition set_update (s t : list string) : list string := fold_left (fun acc x => set_add x acc) t s.

(** [bool(s & t)] *)
Definition intersects (s t : list string) : bool := existsb (fun x => mem x t) s.

(** The one-character string of a character of the input. *)
Definition chr (c : ascii) : string := String c EmptyString.

(** ** Non-deterministic automata ([automata/nfa.py]; [fsa.py] has the same
    [NFA] class, line for line) *)

Module NFA.

(** After [_normalize_transitions] every target is a set. *)
Record NFA : Type := mkNFA {
  alphabet : list string;
  delta : list (string * list (string * list string));
  start : string;
  final_states : list string
}.

Section Automaton.
Variable a : NFA.

(** One iteration of the [for next_state in self.delta[state]['']] loop:
    the pair is [(closure, stack)], the top of the stack at the head. *)
Definition push_new (cs : list string * list string) (next_state : string)
  : list string * list string :=
  let '(closure, stack) := cs in
  if mem next_state closure then (closure, stack)
  else ((closure ++ [next_state])%list, next_state :: stack).

(** [while stack: state = stack.pop(); ...], run for at most [fuel]
    iterations. *)
Fixpoint closure_loop (fuel : nat) (closure stack : list string) : list string :=
  match fuel with
  | 0 => closure
  | S fuel' =>
      match stack with
      | [] => closure
      | state :: stack' =>
          match Dict.get state (delta a) with
          | None => closure_loop fuel' closure stack'
          | Some trans =>
              match Dict.get "" trans with
              | None => closure_loop fuel' closure stack'
              | Some targets =>
                  let '(closure', stack'') := fold_left push_new targets (closure, stack') in
                  closure_loop fuel' closure' stack''
              end
          end
      end
  end.

(** Number of epsilon edges: each loop iteration pops one state, and a
    state is pushed only when it is the target of an epsilon edge and not
    yet in the closure, so [1 + |states| + eps_edges] iterations always
    empty the stack. *)
Definition eps_edges : nat :=
  fold_right (fun '(_, trans) n =>
    match Dict.get "" trans with Some ts => length ts + n | None => n end) 0 (delta a).

Definition epsilon_closure (states : list string) : list string :=
  closure_loop (S (length states + eps_edges)) states (rev states).

Definition step (state symbol : string) : result (list string) :=
  match Dict.get state (delta a) with
  | None => Ok []
  | Some trans =>
      if negb (mem symbol (alphabet a)) then Err SymbolNotInAlphabet
      else match Dict.get symbol trans with
           | None => Ok []
           | Some targets => Ok targets
           end
  end.

Fixpoint step_nfa_loop (states : list string) (symbol : string) (next_states : list string)
  : result (list string) :=
  match states with
  | [] => Ok next_states
  | state :: rest =>
      ts <- step state symbol ;;
      step_nfa_loop rest symbol (set_update next_states ts)
  end.

Definition step_nfa (states : list string) (symbol : string) : result (list string) :=
  next_states <- step_nfa_loop states symbol [] ;;
  Ok (epsilon_closure next_states).

(** [for i, ch in enumerate(s)], [i] the position of the next character. *)
Fixpoint accepts_loop (i : nat) (curr_states : list string) (s : string) : result bool :=
  match s with
  | EmptyString => Ok (intersects curr_states (final_states a))
  | String ch rest =>
      if negb (mem (chr ch) (alphabet a)) then Err (InvalidInputSymbol i)
      else
        curr' <- step_nfa curr_states (chr ch) ;;
        match curr' with
        | [] => Ok false
        | _ :: _ => accepts_loop (S i) curr' rest
        end
  end.

Definition accepts (s : string) : result bool :=
  accepts_loop 0 (epsilon_closure [start a]) s.

End Automaton.
End NFA.

(** The acceptance procedure in the words of the specification: begin with
    the epsilon-closure of [{start}]; for each [(position, character)] of
    the enumerated input, fail with [InvalidInputSymbol position] outside
    the alphabet, else advance with [stepSet] (union of the per-state
    targets, then epsilon-closed), rejecting as soon as the set is empty;
    at the end accept iff the set meets the final states. *)
Module NFAClaim.
Section Automaton.
Variable a : NFA.NFA.

Definition targets (q sym : string) : list string :=
  match Dict.get q (NFA.delta a) with
  | None => []
  | Some trans => match Dict.get sym trans with None => [] | Some ts => ts end
  end.

Definition stepSet (states : list string) (sym : string) : list string :=
  NFA.epsilon_closure a (fold_left (fun acc q => set_update acc (targets q sym)) states []).

Fixpoint enumerate (i : nat) (s : string) : list (nat * string) :=
  match s with
  | EmptyString => []
  | String c rest => (i, chr c) :: enumerate (S i) rest
  end.

Fixpoint run (curr : list string) (input : list (nat * string)) : result bool :=
  match input with
  | [] => Ok (intersects curr (NFA.final_states a))
  | (pos, ch) :: input' =>
      if mem ch (NFA.alphabet a) then
        let next := stepSet curr ch in
        match next with
        | [] => Ok false
        | _ => run next input'
        end
      else Err (InvalidInputSymbol pos)
  end.

Definition accepts (s : string) : result bool :=
  run (NFA.epsilon_closure a [NFA.start a]) (enumerate 0 s).

End Automaton.
End NFAClaim.

(** ** Deterministic automata *)

Module DFA.

Record DFA : Type := mkDFA {
  alphabet : list string;
  delta : list (string * list (string * string));
  start : string;
  final_states : list string
}.

Section Automaton.
Variable d : DFA.

Definition step (state symbol : string) : result string :=
  match Dict.get state (delta d) with
  | None => Err UnknownState
  | Some trans =>
      if negb (mem symbol (alphabet d)) then Err SymbolNotInAlphabet
      else match Dict.get symbol trans with
           | None => Err NoTransition
           | Some target => Ok target
           end
  end.

Fixpoint accepts_loop (i : nat) (state : string) (s : string) : result bool :=
  match s with
  | EmptyString => Ok (mem state (final_states d))
  | String ch rest =>
      if negb (mem (chr ch) (alphabet d)) then Err (InvalidInputSymbol i)
      else
        state' <- step state (chr ch) ;;
        accepts_loop (S i) state' rest
  end.

(** [automata/dfa.py]: [state = self.start]. *)
Definition accepts (s : string) : result bool := accepts_loop 0 (start d) s.

End Automaton.

(** [FSA.__init__] (in [fsa_base.py] and in [fsa.py]) with no arguments:
    the automaton of strings with an even number of [a] and an odd number
    of [b]. *)
Definition default_dfa : DFA := {|
  alphabet := ["a"; "b"];
  delta := [("S", [("a", "A"); ("b", "F")]);
            ("A", [("a", "S"); ("b", "B")]);
            ("B", [("a", "F"); ("b", "A")]);
            ("F", [("a", "B"); ("b", "S")])];
  start := "S";
  final_states := ["F"] |}.

End DFA.

(** The [DFA] class of [fsa.py]: its [accepts] starts with
    [state = self.state], an attribute that [FSA.__init__] never sets
    (it sets [alphabet], [start], [final_states] and [delta]). *)
Module FsaPyDFA.

Definition getattr_state (d : DFA.DFA) : result string := Err (AttributeError "state").

Definition accepts (d : DFA.DFA) (s : string) : result bool :=
  state <- getattr_state d ;;
  DFA.accepts_loop d 0 state s.

End FsaPyDFA.

(** ** Regular expressions ([regular_expression.py]) *)

Module RE.

(** [RegexUnion], [RegexConcat] and [RegexKleeneStar] define no [__eq__],
    so Python compares them by object identity: each such node carries the
    identity [oid] of the Python object.  [Symbol], [EmptyString] and
    [EmptySet] compare structurally, so they need none. *)
Inductive regex : Type :=
  | Symbol (symbol : string)
  | EmptyString
  | EmptySet
  | RegexUnion (oid : nat) (left right : regex)
  | RegexConcat (oid : nat) (left right : regex)
  | RegexKleeneStar (oid : nat) (expr : regex).

Definition is_EmptyString (r : regex) : bool :=
  match r with EmptyString => true | _ => false end.

Definition is_EmptySet (r : regex) : bool :=
  match r with EmptySet => true | _ => false end.

(** [left == right]: the leaves' [__eq__] is an [isinstance] test (and a
    comparison of [symbol]); two compound nodes are equal iff they are the
    same object; a compound node and a leaf are never equal. *)
Definition py_eq (l r : regex) : bool :=
  match l, r with
  | Symbol s, Symbol t => String.eqb s t
  | EmptyString, EmptyString => true
  | EmptySet, EmptySet => true
  | (RegexUnion o _ _ | RegexConcat o _ _ | RegexKleeneStar o _),
    (RegexUnion o' _ _ | RegexConcat o' _ _ | RegexKleeneStar o' _) => Nat.eqb o o'
  | _, _ => false
  end.

(** Smart constructors; [oid] is the identity of the node they allocate
    when they allocate one. *)
Definition make_union (oid : nat) (left right : regex) : regex :=
  if is_EmptySet left then right
  else if is_EmptySet right then left
  else if py_eq left right then left
  else RegexUnion oid left right.

Definition make_concat (oid : nat) (left right : regex) : regex :=
  if is_EmptyString left then right
  else if is_EmptyString right then left
  else if is_EmptySet left || is_EmptySet right then EmptySet
  else RegexConcat oid left right.

(** The parameter is named [regex] in the source. *)
Definition make_kleene_star (oid : nat) (e : regex) : regex :=
  if is_EmptyString e || is_EmptySet e then EmptyString
  else RegexKleeneStar oid e.

(** The tree with every object identity erased: structural equality of
    two expressions is equality of their [strip_ids]. *)
Fixpoint strip_ids (r : regex) : regex :=
  match r with
  | RegexUnion _ l r' => RegexUnion 0 (strip_ids l) (strip_ids r')
  | RegexConcat _ l r' => RegexConcat 0 (strip_ids l) (strip_ids r')
  | RegexKleeneStar _ e => RegexKleeneStar 0 (strip_ids e)
  | _ => r
  end.

(** *** Rendering *)

Definition eps_glyph : string := "ε".
Definition empty_glyph : string := "∅".

Definition ends_with (c s : string) : bool :=
  String.eqb (substring (String.length s - 1) 1 s) c.

Definition contains (c s : string) : bool :=
  match index 0 c s with Some _ => true | None => false end.

Definition _strip_parantheses (expr_str : string) : string :=
  if prefix "(" expr_str && ends_with ")" expr_str && contains "|" expr_str
  then substring 1 (String.length expr_str - 2) expr_str
  else expr_str.

(** Python values reaching [_add_parantheses]. *)
Inductive pyobj : Type :=
  | PyStr (s : string)
  | PyNode (r : regex).

Definition isinstance_union_or_concat (o : pyobj) : bool :=
  match o with
  | PyNode (RegexUnion _ _ _) | PyNode (RegexConcat _ _ _) => true
  | _ => false
  end.

(** [_add_parantheses(expr_str)]: every caller passes [str(...)], a
    string, and the [isinstance] test is made on that string. *)
Definition _add_parantheses (expr_str : string) : string :=
  if isinstance_union_or_concat (PyStr expr_str) then "(" ++ expr_str ++ ")"
  else expr_str.

(** [str(r)]; the inner [star_str e] is [str(RegexKleeneStar(e))]. *)
Fixpoint regex_str (r : regex) : string :=
  match r with
  | Symbol s => s
  | EmptyString => eps_glyph
  | EmptySet => empty_glyph
  | RegexUnion _ l r' =>
      if is_EmptySet l then regex_str r'
      else if is_EmptySet r' then regex_str l
      else if py_eq l r' then regex_str l
      else "(" ++ _strip_parantheses (regex_str l) ++ "|"
               ++ _strip_parantheses (regex_str r') ++ ")"
  | RegexConcat _ l r' =>
      if is_EmptyString l then regex_str r'
      else if is_EmptyString r' then regex_str l
      else if is_EmptySet l || is_EmptySet r' then empty_glyph
      else _add_parantheses (regex_str l) ++ _add_parantheses (regex_str r')
  | RegexKleeneStar _ e =>
      (fix star_str (e : regex) : string :=
         if is_EmptyString e || is_EmptySet e then eps_glyph
         else match e with
              | RegexUnion _ l r' =>
                  if is_EmptyString l then star_str r'
                  else if is_EmptyString r' then star_str l
                  else _add_parantheses (regex_str e) ++ "*"
              | _ => _add_parantheses (regex_str e) ++ "*"
              end) e
  end.

End RE.

(** ** [FSA.get_states] ([fsa_base.py], and the same method in [fsa.py]),
    shared by every automaton class: [set(self.delta.keys())]. *)
Definition get_states {V : Type} (delta : list (string * V)) : list string := Dict.keys delta.

(** ** Grammar to automaton ([regular_grammar.py]) *)

Module Grammar.

Inductive GrammarType : Type := RIGHT_LINEAR | LEFT_LINEAR.

(** [RegularProduction]; [__post_init__] rejects [terminal = None] with
    [right_side <> None]. *)
Record RegularProduction : Type := mkProduction {
  left_side : string;
  terminal : option string;
  right_side : option string;
  grammar_type : GrammarType
}.

(** [RegularGrammar]; its field [grammar_type] is [g_grammar_type] here. *)
Record RegularGrammar : Type := mkGrammar {
  variables : list string;
  terminals : list string;
  productions : list RegularProduction;
  start_variable : string;
  g_grammar_type : GrammarType
}.

Definition epsilon_production (l : string) (t : GrammarType) : RegularProduction :=
  mkProduction l None None t.
Definition terminal_production (l term : string) (t : GrammarType) : RegularProduction :=
  mkProduction l (Some term) None t.
Definition right_linear_production (l term r : string) : RegularProduction :=
  mkProduction l (Some term) (Some r) RIGHT_LINEAR.
Definition left_linear_production (l term r : string) : RegularProduction :=
  mkProduction l (Some term) (Some r) LEFT_LINEAR.

Definition is_epsilon_production (p : RegularProduction) : bool :=
  match terminal p, right_side p with None, None => true | _, _ => false end.

Definition transitions_t := list (string * list (string * list string)).

(** [transitions[v].setdefault(term, set()).add(x)] *)
Definition add_edge (transitions : transitions_t) (v term x : string) : result transitions_t :=
  row <- Dict.index transitions v ;;
  let targets := match Dict.get term row with Some ts => ts | None => [] end in
  Ok (Dict.set v (Dict.set term (set_add x targets) row) transitions).

(** The loop state: [(transitions, final_states, extra_final)].  The local
    set [states] of the source is never read after it is built, so it is
    not tracked. *)
Definition conv_state := (transitions_t * list string * option string)%type.

Definition conv_production (st : conv_state) (p : RegularProduction) : result conv_state :=
  let '(transitions, final_states, extra_final) := st in
  if is_epsilon_production p then Ok (transitions, set_add (left_side p) final_states, extra_final)
  else match grammar_type p, right_side p, terminal p with
  | RIGHT_LINEAR, Some r, Some t =>
      tr <- add_edge transitions (left_side p) t r ;; Ok (tr, final_states, extra_final)
  | RIGHT_LINEAR, None, Some t =>
      let extra := match extra_final with Some e => e | None => "[Final]" end in
      tr <- add_edge transitions (left_side p) t extra ;;
      Ok (tr, set_add extra final_states, Some extra)
  | LEFT_LINEAR, Some r, Some t =>
      tr <- add_edge transitions r t (left_side p) ;; Ok (tr, final_states, extra_final)
  | LEFT_LINEAR, None, Some t =>
      let extra := match extra_final with Some e => e | None => "[FINAL]" end in
      tr <- add_edge transitions (left_side p) t extra ;;
      Ok (tr, set_add extra final_states, Some extra)
  | _, _, None => Ok st   (* excluded by [__post_init__] *)
  end.

Definition to_finite_automaton (g : RegularGrammar) : result NFA.NFA :=
  let transitions := map (fun v => (v, [])) (variables g) in
  '(transitions, final_states, _) <- fold_result conv_production (productions g) (transitions, [], None) ;;
  (* "Remove empty transitions" *)
  let transitions := filter (fun '(_, tr) => match tr with [] => false | _ => true end) transitions in
  Ok (NFA.mkNFA (terminals g) transitions (start_variable g) final_states).

(** [S -> 0S | 1], generating [0*1]. *)
Definition g01 : RegularGrammar :=
  mkGrammar ["S"] ["0"; "1"]
    [right_linear_production "S" "0" "S"; terminal_production "S" "1" RIGHT_LINEAR]
    "S" RIGHT_LINEAR.

(** A grammar whose only production is [S -> epsilon]. *)
Definition g_eps (vars terms : list string) (s : string) : RegularGrammar :=
  mkGrammar vars terms [epsilon_production s RIGHT_LINEAR] s RIGHT_LINEAR.

Definition accepts (g : RegularGrammar) (s : string) : result bool :=
  a <- to_finite_automaton g ;; NFA.accepts a s.

End Grammar.

(** ** State elimination ([RegexConvertible.to_regex] of
    [regex_convertible.py]) *)

Module ToRegex.

(** A transition target as [to_regex] sees it: a single state (a [DFA],
    whose target is not a set) or a set of states (an [NFA]). *)
Inductive Target : Type :=
  | Single (to_state : string)
  | Many (to_states : list string).

Record Convertible : Type := mkConvertible {
  delta : list (string * list (string * Target));
  start : string;
  final_states : list string
}.

Definition of_dfa (d : DFA.DFA) : Convertible :=
  mkConvertible (map (fun '(q, tr) => (q, map (fun '(sym, t) => (sym, Single t)) tr)) (DFA.delta d))
                (DFA.start d) (DFA.final_states d).

Definition of_nfa (a : NFA.NFA) : Convertible :=
  mkConvertible (map (fun '(q, tr) => (q, map (fun '(sym, ts) => (sym, Many ts)) tr)) (NFA.delta a))
                (NFA.start a) (NFA.final_states a).

(** [R: dict[str, dict[str, RegularExpression]]] *)
Definition matrix := list (string * list (string * RE.regex)).

(** [R[i][j]] *)
Definition mget (R : matrix) (i j : string) : result RE.regex :=
  row <- Dict.index R i ;; Dict.index row j.

(** [R[i][j] = v] *)
Definition mset (R : matrix) (i j : string) (v : RE.regex) : result matrix :=
  row <- Dict.index R i ;; Ok (Dict.set i (Dict.set j v row) R).

(** The loop state threads the matrix and the next fresh object identity. *)
Definition mstate := (matrix * nat)%type.

Definition init_matrix (states : list string) : matrix :=
  map (fun state1 => (state1, map (fun state2 => (state2, RE.EmptySet)) states)) states.

Definition add_symbol (symbol_regex : RE.regex) (from_state : string) (st : mstate) (to_state : string)
  : result mstate :=
  let '(R, n) := st in
  curr_symbol <- mget R from_state to_state ;;
  if RE.is_EmptySet curr_symbol then
    R' <- mset R from_state to_state symbol_regex ;; Ok (R', n)
  else
    R' <- mset R from_state to_state (RE.make_union n curr_symbol symbol_regex) ;; Ok (R', S n).

Definition add_transition (from_state : string) (st : mstate) (e : string * Target) : result mstate :=
  let '(symbol, target) := e in
  let symbol_regex := if String.eqb symbol "" then RE.EmptyString else RE.Symbol symbol in
  match target with
  | Single to_state => add_symbol symbol_regex from_state st to_state
  | Many to_states => fold_result (add_symbol symbol_regex from_state) to_states st
  end.

Definition add_edges (a : Convertible) (st : mstate) : result mstate :=
  fold_result (fun st '(from_state, transitions) =>
                 fold_result (add_transition from_state) transitions st) (delta a) st.

(** "One final state": the result is [(states, R, final_state)]. *)
Definition single_final (a : Convertible) (states : list string) (R : matrix)
  : result (list string * matrix * string) :=
  if Nat.ltb 1 (length (final_states a)) then
    let new_final_state := "F_new" in
    let states := set_add new_final_state states in
    let R := Dict.set new_final_state [] R in
    R <- fold_result (fun R state =>
           R1 <- (if String.eqb state new_final_state then Ok R
                  else mset R state new_final_state RE.EmptySet) ;;
           mset R1 new_final_state state RE.EmptySet) states R ;;
    R <- fold_result (fun R final_state => mset R final_state new_final_state RE.EmptyString)
           (final_states a) R ;;
    Ok (states, R, new_final_state)
  else match final_states a with
       | final_state :: _ => Ok (states, R, final_state)
       | [] => Err StopIteration
       end.

(** The body of the [for j in remaining_states] loop, for the pair [(i, j)]. *)
Definition elim_pair (k : string) (st : mstate) (ij : string * string) : result mstate :=
  let '(R, n) := st in
  let '(i, j) := ij in
  old_path <- mget R i j ;;
  rik <- mget R i k ;;
  rkk <- mget R k k ;;
  let inner := RE.make_concat (S n) rik (RE.make_kleene_star n rkk) in
  rkj <- mget R k j ;;
  let new_path := RE.make_concat (2 + n) inner rkj in
  R' <- mset R i j (RE.make_union (3 + n) old_path new_path) ;;
  Ok (R', 4 + n).

Definition remaining (states : list string) (k : string) : list string :=
  filter (fun state => negb (String.eqb state k)) states.

(** The pass eliminating [k]: [(i, j)] ranges over [remaining x remaining]
    in the order of the two nested loops. *)
Definition elim_state (states : list string) (k : string) (st : mstate) : result mstate :=
  let remaining_states := remaining states k in
  fold_result (elim_pair k) (list_prod remaining_states remaining_states) st.

(** [states.remove(k)] *)
Fixpoint remove_state (k : string) (states : list string) : result (list string) :=
  match states with
  | [] => Err (KeyError k)
  | s :: rest => if String.eqb s k then Ok rest else
                 rest' <- remove_state k rest ;; Ok (s :: rest')
  end.

Fixpoint eliminate (states : list string) (elimination_order : list string) (st : mstate)
  : result (mstate * list string) :=
  match elimination_order with
  | [] => Ok (st, states)
  | k :: ks =>
      st' <- elim_state states k st ;;
      states' <- remove_state k states ;;
      eliminate states' ks st'
  end.

Definition to_regex (a : Convertible) : result RE.regex :=
  let states := get_states (delta a) in
  '(R, n) <- add_edges a (init_matrix states, 0) ;;
  '(states, R, final_state) <- single_final a states R ;;
  let elimination_order :=
    filter (fun state => negb (String.eqb state (start a) || String.eqb state final_state)) states in
  '((R, n), _) <- eliminate states elimination_order (R, n) ;;
  start_loop <- mget R (start a) (start a) ;;
  direct_path <- mget R (start a) final_state ;;
  if RE.is_EmptySet start_loop then Ok direct_path
  else Ok (RE.make_concat (S n) (RE.make_kleene_star n start_loop) direct_path).

(** The elimination pass as the specification describes it: the entries
    [R[i][k]], [R[k][k]] and [R[k][j]] are read from the matrix [R0] the
    pass started from. *)
Definition elim_pair_snapshot (R0 : matrix) (k : string) (st : mstate) (ij : string * string)
  : result mstate :=
  let '(R, n) := st in
  let '(i, j) := ij in
  old_path <- mget R i j ;;
  rik <- mget R0 i k ;;
  rkk <- mget R0 k k ;;
  let inner := RE.make_concat (S n) rik (RE.make_kleene_star n rkk) in
  rkj <- mget R0 k j ;;
  let new_path := RE.make_concat (2 + n) inner rkj in
  R' <- mset R i j (RE.make_union (3 + n) old_path new_path) ;;
  Ok (R', 4 + n).

End ToRegex.

(** [RegexConvertible.to_regex] of [fsa.py]: the same algorithm, except
    that the multi-final branch reads [self.finale_states], an attribute
    that does not exist, and the elimination pass filters with
    [state != l], a name that is not bound. *)
Module FsaPyToRegex.
Import ToRegex.

Definition single_final (a : Convertible) (states : list string) (R : matrix)
  : result (list string * matrix * string) :=
  if Nat.ltb 1 (length (final_states a)) then
    let new_final_state := "F_new" in
    let states := set_add new_final_state states in
    let R := Dict.set new_final_state [] R in
    R <- fold_result (fun R state =>
           R1 <- (if String.eqb state new_final_state then Ok R
                  else mset R state new_final_state RE.EmptySet) ;;
           mset R1 new_final_state state RE.EmptySet) states R ;;
    Err (AttributeError "finale_states")
  else match final_states a with
       | final_state :: _ => Ok (states, R, final_state)
       | [] => Err StopIteration
       end.

(** [[state for state in states if state != l]]: the condition is
    evaluated on the first state and raises. *)
Definition remaining (states : list string) (k : string) : result (list string) :=
  match states with
  | [] => Ok []
  | _ :: _ => Err (NameError "l")
  end.

Definition elim_state (states : list string) (k : string) (st : mstate) : result mstate :=
  remaining_states <- remaining states k ;;
  fold_result (elim_pair k) (list_prod remaining_states remaining_states) st.

Fixpoint eliminate (states : list string) (elimination_order : list string) (st : mstate)
  : result (mstate * list string) :=
  match elimination_order with
  | [] => Ok (st, states)
  | k :: ks =>
      st' <- elim_state states k st ;;
      states' <- remove_state k states ;;
      eliminate states' ks st'
  end.

Definition to_regex (a : Convertible) : result RE.regex :=
  let states := get_states (delta a) in
  '(R, n) <- add_edges a (init_matrix states, 0) ;;
  '(states, R, final_state) <- single_final a states R ;;
  let elimination_order :=
    filter (fun state => negb (String.eqb state (start a) || String.eqb state final_state)) states in
  '((R, n), _) <- eliminate states elimination_order (R, n) ;;
  start_loop <- mget R (start a) (start a) ;;
  direct_path <- mget R (start a) final_state ;;
  if RE.is_EmptySet start_loop then Ok direct_path
  else Ok (RE.make_concat (S n) (RE.make_kleene_star n start_loop) direct_path).

End FsaPyToRegex.

(** ** Automata of the test suite and of the examples *)

(** The epsilon automaton of the tests ([epsilon_nfa]). *)
Definition eps_nfa : NFA.NFA := {|
  NFA.alphabet := ["a"; "b"];
  NFA.delta := [("q0", [("", ["q1"]); ("a", ["q0"])]); ("q1", [("b", ["q2"])]); ("q2", [("", ["q0"])])];
  NFA.start := "q0";
  NFA.final_states := ["q2"] |}.
(** An automaton with two final states [q0], [q1] and an ordinary state
    that happens to be called [F_new]: it accepts exactly [""] and ["ab"]. *)
Definition cex_fnew : ToRegex.Convertible := ToRegex.mkConvertible
  [("q0", [("a", ToRegex.Many ["F_new"])]); ("F_new", [("b", ToRegex.Many ["q1"])]); ("q1", [])] "q0" ["q0"; "q1"].

(** The test fixture [multi_final_nfa]. *)
Definition multi_final_nfa : NFA.NFA := {|
  NFA.alphabet := ["0"; "1"];
  NFA.delta := [("q0", [("0", ["q1"]); ("1", ["q2"])]);
                ("q1", [("0", ["q0"]); ("1", ["q1"])]);
                ("q2", [("0", ["q2"]); ("1", ["q0"])])];
  NFA.start := "q0";
  NFA.final_states := ["q1"; "q2"] |}.

(** The part of [to_regex] before the elimination: the matrix, its
    [EmptySet] initialisation over [get_states], the edges, and the choice
    of the final state. *)
Definition to_regex_prefix (a : ToRegex.Convertible)
  : result (list string * ToRegex.matrix * string) :=
  let states := get_states (ToRegex.delta a) in
  '(R, n) <- ToRegex.add_edges a (ToRegex.init_matrix states, 0) ;;
  ToRegex.single_final a states R.

(** [0^n]. *)
Fixpoint zeros (n : nat) : string :=
  match n with
  | 0 => ""
  | S n' => String "0" (zeros n')
  end.

(** ** Moore machines ([automata/moore_machine.py] and
    [automatons/moore_machine.py]) *)

Module Moore.
Section Machine.

(** The two classes differ only in the value [get_output] returns for a
    state without output, which is also the value [__init__] gives every
    state when no [output] is passed: [""] in [automata/moore_machine.py],
    [None] in [automatons/moore_machine.py]. *)
Variable O : Type.
Variable no_output : O.

Record Moore : Type := mkMoore {
  alphabet : list string;
  delta : list (string * list (string * string));
  start : string;
  final_states : list string;
  output : list (string * O)
}.

(** [__init__] after [FSA.__init__]: [output=None] gives every state of
    [get_states()] the output [no_output]. *)
Definition init (alphabet : list string) (delta : list (string * list (string * string)))
  (start : string) (final_states : list string) (output : option (list (string * O))) : Moore :=
  mkMoore alphabet delta start final_states
    (match output with
     | None => map (fun state => (state, no_output)) (get_states delta)
     | Some o => o
     end).

Variable m : Moore.

(** [self.output.get(state, no_output)] *)
Definition get_output (state : string) : O :=
  match Dict.get state (output m) with
  | Some v => v
  | None => no_output
  end.

Definition step (state symbol : string) : result string :=
  match Dict.get state (delta m) with
  | None => Err UnknownState
  | Some trans =>
      if negb (mem symbol (alphabet m)) then Err SymbolNotInAlphabet
      else match Dict.get symbol trans with
           | None => Err NoTransition
           | Some target => Ok target
           end
  end.

(** The [for symbol in input_str] loop of [process_input] ([process] in
    [automatons/moore_machine.py]). *)
Fixpoint process_loop (state : string) (s : string) (outputs : list O) : result (list O) :=
  match s with
  | EmptyString => Ok outputs
  | String ch rest =>
      state' <- step state (chr ch) ;;
      process_loop state' rest (outputs ++ [get_output state'])%list
  end.

Definition process_input (s : string) : result (list O) :=
  process_loop (start m) s [get_output (start m)].

Fixpoint accepts_loop (state : string) (s : string) : result bool :=
  match s with
  | EmptyString => Ok (mem state (final_states m))
  | String ch rest =>
      state' <- step state (chr ch) ;;
      accepts_loop state' rest
  end.

Definition accepts (s : string) : result bool := accepts_loop (start m) s.

End Machine.
Arguments mkMoore {O}.
Arguments alphabet {O}.
Arguments delta {O}.
Arguments start {O}.
Arguments final_states {O}.
Arguments output {O}.
Arguments init {O}.
Arguments get_output {O}.
Arguments step {O}.
Arguments process_loop {O}.
Arguments process_input {O}.
Arguments accepts_loop {O}.
Arguments accepts {O}.
End Moore.

(** The [DFA] with the same alphabet, transitions, start and final states
    as a Moore machine. *)
Definition moore_as_dfa {O : Type} (m : Moore.Moore O) : DFA.DFA :=
  DFA.mkDFA (Moore.alphabet m) (Moore.delta m) (Moore.start m) (Moore.final_states m).

(** ** Mealy machines ([automata/mealy_machine.py]) *)

Module Mealy.

(** The values of [self.output]: [__init__] with [output=None] maps every
    state to the string [""]; a caller passes a dict of dicts. *)
Inductive out_value : Type :=
  | OutStr (s : string)
  | OutDict (d : list (string * string)).

(** [__init__] passes no [final_states] to [FSA.__init__], and the Mealy
    machine never reads them. *)
Record Mealy : Type := mkMealy {
  alphabet : list string;
  delta : list (string * list (string * string));
  start : string;
  output : list (string * out_value)
}.

Definition init (alphabet : list string) (delta : list (string * list (string * string)))
  (start : string) (output : option (list (string * out_value))) : Mealy :=
  mkMealy alphabet delta start
    (match output with
     | None => map (fun state => (state, OutStr "")) (get_states delta)
     | Some o => o
     end).

Section Machine.
Variable m : Mealy.

(** The second [get_output] of the class body, which replaces the first:
    [self.output.get(state, {}).get(symbol, "")]; a [str] has no [get]. *)
Definition get_output (state symbol : string) : result string :=
  match Dict.get state (output m) with
  | None => Ok ""
  | Some (OutDict d) => Ok (match Dict.get symbol d with Some v => v | None => "" end)
  | Some (OutStr _) => Err (AttributeError "get")
  end.

Definition step (state symbol : string) : result (string * string) :=
  match Dict.get state (delta m) with
  | None => Err UnknownState
  | Some trans =>
      if negb (mem symbol (alphabet m)) then Err SymbolNotInAlphabet
      else match Dict.get symbol trans with
           | None => Err NoTransition
           | Some next_state =>
               output_symbol <- get_output state symbol ;;
               Ok (next_state, output_symbol)
           end
  end.

Fixpoint process_loop (state : string) (s : string) (outputs : list string)
  : result (list string) :=
  match s with
  | EmptyString => Ok outputs
  | String ch rest =>
      '(state', output_symbol) <- step state (chr ch) ;;
      process_loop state' rest (outputs ++ [output_symbol])%list
  end.

Definition process_input (s : string) : result (list string) :=
  process_loop (start m) s [].

End Machine.
End Mealy.

(** ** Epsilon edges and epsilon reachability of an [NFA] *)

Module NFAReach.

(** [self.delta[state]['']] when both keys exist, nothing otherwise: the
    states the loop of [epsilon_closure] pushes from [state]. *)
Definition eps_targets (a : NFA.NFA) (q : string) : list string :=
  match Dict.get q (NFA.delta a) with
  | Some trans => match Dict.get "" trans with Some ts => ts | None => [] end
  | None => []
  end.

(** The states reachable from [states] by epsilon edges. *)
Inductive eps_reach (a : NFA.NFA) (states : list string) : string -> Prop :=
  | reach_here (q : string) : In q states -> eps_reach a states q
  | reach_edge (q r : string) : eps_reach a states q -> In r (eps_targets a q) -> eps_reach a states r.

(** Every target of an epsilon edge, row by row, with repetitions: its
    length is [NFA.eps_edges]. *)
Definition all_eps_targets (a : NFA.NFA) : list string :=
  fold_right (fun '(_, trans) acc =>
    match Dict.get "" trans with Some ts => (ts ++ acc)%list | None => acc end) [] (NFA.delta a).

End NFAReach.

(** ** Grammar validation and queries ([regular_grammar.py]) *)

Module GrammarChecks.
Import Grammar.

Definition GrammarType_eqb (x y : GrammarType) : bool :=
  match x, y with
  | RIGHT_LINEAR, RIGHT_LINEAR | LEFT_LINEAR, LEFT_LINEAR => true
  | _, _ => false
  end.

(** [RegularProduction.__post_init__]; [None] stands for the [ValueError]
    (both branches make the same test). *)
Definition post_init (p : RegularProduction) : option RegularProduction :=
  match grammar_type p with
  | RIGHT_LINEAR | LEFT_LINEAR =>
      match terminal p, right_side p with
      | None, Some _ => None
      | _, _ => Some p
      end
  end.

(** [RegularGrammar.__init__]; [None] stands for the [ValueError].  The
    start variable may be Python's [None], which is never in the set of
    variables. *)
Definition RegularGrammar_init (variables terminals : list string)
  (productions : list RegularProduction) (start_variable : option string)
  (grammar_type : GrammarType) : option RegularGrammar :=
  match start_variable with
  | None => None
  | Some s =>
      if negb (mem s variables) then None
      else if intersects variables terminals then None
      else if forallb (fun prod =>
                 mem (left_side prod) variables
                 && GrammarType_eqb (Grammar.grammar_type prod) grammar_type
                 && match terminal prod with Some t => mem t terminals | None => true end
                 && match right_side prod with Some r => mem r variables | None => true end)
               productions
      then Some (mkGrammar variables terminals productions s grammar_type)
      else None
  end.

Definition get_produtions_for_variable (g : RegularGrammar) (variable : string)
  : list RegularProduction :=
  filter (fun prod => String.eqb (left_side prod) variable) (productions g).

Definition get_nullable_variables (g : RegularGrammar) : list string :=
  fold_left (fun nullable prod =>
               if is_epsilon_production prod then set_add (left_side prod) nullable
               else nullable) (productions g) [].

Definition derives_epsilon (g : RegularGrammar) : bool :=
  mem (start_variable g) (get_nullable_variables g).

(** The loop returns [False] at the first failing production, [True]
    after the last; the [try] never catches anything. *)
Definition is_valid_regular_grammar (g : RegularGrammar) : bool :=
  forallb (fun prod =>
             GrammarType_eqb (grammar_type prod) (g_grammar_type g)
             && negb (match right_side prod, terminal prod with
                      | Some _, None => true
                      | _, _ => false
                      end))
          (productions g).

(** [make_regular_grammar]; [next(iter(variables))] is the first variable
    in iteration order. *)
Definition make_regular_grammar (variables terminals : option (list string))
  (productions : option (list RegularProduction)) (start_variable : option string)
  (grammar_type : GrammarType) : option RegularGrammar :=
  let variables := match variables with Some v => v | None => [] end in
  let terminals := match terminals with Some t => t | None => [] end in
  let productions := match productions with Some p => p | None => [] end in
  let start_variable :=
    match start_variable, variables with
    | None, v :: _ => Some v
    | _, _ => start_variable
    end in
  RegularGrammar_init variables terminals productions start_variable grammar_type.

(** The name of the synthetic final state [to_finite_automaton] creates
    for the first production [A -> a]. *)
Definition extra_final_name (t : GrammarType) : string :=
  match t with RIGHT_LINEAR => "[Final]" | LEFT_LINEAR => "[FINAL]" end.

(** Every label of every row of [transitions] is one of [terminals]. *)
Definition labels_in (terminals : list string) (transitions : transitions_t) : Prop :=
  forall v row label targets, In (v, row) transitions -> In (label, targets) row ->
  In label terminals.

(** [transitions.get(q, {}).get(symbol, set())]: the targets of the
    edges labelled [symbol] out of [q]. *)
Definition edge_targets (transitions : transitions_t) (q symbol : string) : list string :=
  match Dict.get q transitions with
  | None => []
  | Some row => match Dict.get symbol row with None => [] | Some ts => ts end
  end.

(** What [RegularGrammar.__init__] checks of each production. *)
Definition checked (variables terminals : list string) (gt : GrammarType)
  (p : RegularProduction) : Prop :=
  In (left_side p) variables /\ grammar_type p = gt /\
  (forall t, terminal p = Some t -> In t terminals) /\
  (forall r, right_side p = Some r -> In r variables).

End GrammarChecks.

(** The states a transition target of [to_regex] names. *)
Definition target_states (t : ToRegex.Target) : list string :=
  match t with
  | ToRegex.Single q => [q]
  | ToRegex.Many qs => qs
  end.

(** Every entry [R[x][y]] with [x] and [y] among [states] can be read. *)
Definition matrix_defined (states : list string) (R : ToRegex.matrix) : Prop :=
  forall x y, In x states -> In y states -> exists v, ToRegex.mget R x y = Ok v.

(** Number of occurrences of a character in a string. *)
Fixpoint count_char (c : ascii) (s : string) : nat :=
  match s with
  | EmptyString => 0
  | String c' rest => (if Ascii.eqb c c' then 1 else 0) + count_char c rest
  end.

(** * Proofs *)

(** ** Dictionaries *)

Lemma get_set_same {V : Type} (k : string) (v : V) (d : list (string * V)) :
  Dict.get k (Dict.set k v d) = Some v.
Proof.
  induction d as [|[k' v'] d IH]; simpl.
  - now rewrite String.eqb_refl.
  - destruct (String.eqb k k') eqn:E; simpl.
    + now rewrite String.eqb_refl.
    + now rewrite E.
Qed.

Lemma get_set_other {V : Type} (k x : string) (v : V) (d : list (string * V)) :
  x <> k -> Dict.get x (Dict.set k v d) = Dict.get x d.
Proof.
  intros Hne. induction d as [|[k' v'] d IH]; simpl.
  - apply String.eqb_neq in Hne. now rewrite Hne.
  - destruct (String.eqb k k') eqn:E; simpl.
    + apply String.eqb_eq in E. subst k'.
      apply String.eqb_neq in Hne. now rewrite Hne.
    + destruct (String.eqb x k'); auto.
Qed.

(** ** C1: NFA acceptance *)

Lemma nfa_step_in_alphabet (a : NFA.NFA) (q sym : string) :
  mem sym (NFA.alphabet a) = true -> NFA.step a q sym = Ok (NFAClaim.targets a q sym).
Proof.
  intros H. unfold NFA.step, NFAClaim.targets.
  destruct (Dict.get q (NFA.delta a)) as [trans|]; [|reflexivity].
  rewrite H. simpl. now destruct (Dict.get sym trans).
Qed.

Lemma nfa_step_nfa_loop_in_alphabet (a : NFA.NFA) (sym : string) :
  mem sym (NFA.alphabet a) = true ->
  forall states acc, NFA.step_nfa_loop a states sym acc
    = Ok (fold_left (fun acc q => set_update acc (NFAClaim.targets a q sym)) states acc).
Proof.
  intros H states. induction states as [|q states IH]; intros acc; simpl; [reflexivity|].
  rewrite (nfa_step_in_alphabet a q sym H). simpl. apply IH.
Qed.

Lemma nfa_accepts_loop_run (a : NFA.NFA) :
  forall s i curr, NFA.accepts_loop a i curr s = NFAClaim.run a curr (NFAClaim.enumerate i s).
Proof.
  induction s as [|c s IH]; intros i curr; simpl; [reflexivity|].
  destruct (mem (chr c) (NFA.alphabet a)) eqn:E; simpl; [|reflexivity].
  unfold NFA.step_nfa. rewrite (nfa_step_nfa_loop_in_alphabet a (chr c) E). simpl.
  unfold NFAClaim.stepSet.
  destruct (NFA.epsilon_closure a _); [reflexivity|]. apply IH.
Qed.

(** C1: [accepts] starts from the epsilon-closure of [{start}], fails with
    [InvalidInputSymbol i] at the first character outside the alphabet,
    otherwise advances with [stepSet] (union of the per-state targets,
    epsilon-closed), rejects as soon as the set is empty, and accepts iff
    the last set meets the final states; in particular the empty string is
    accepted iff the initial closure meets them.  On the epsilon automaton
    of the tests: [""] is rejected and ["b"], ["aab"], ["bb"] are accepted. *)
Theorem nfa_accepts_spec :
  (forall (a : NFA.NFA) (s : string), NFA.accepts a s = NFAClaim.accepts a s) /\
  (forall a : NFA.NFA,
     NFA.accepts a "" = Ok (intersects (NFA.epsilon_closure a [NFA.start a]) (NFA.final_states a))) /\
  NFA.accepts eps_nfa "" = Ok false /\
  NFA.accepts eps_nfa "b" = Ok true /\
  NFA.accepts eps_nfa "aab" = Ok true /\
  NFA.accepts eps_nfa "bb" = Ok true.
Proof.
  split; [|split; [|repeat split; vm_compute; reflexivity]].
  - intros a s. unfold NFA.accepts, NFAClaim.accepts. apply nfa_accepts_loop_run.
  - intros a. reflexivity.
Qed.

(** ** C2: DFA acceptance *)

(** C2: the [DFA] class that the tests, the package and the grammar module
    import is the one of [fsa.py]; its [accepts] reads [self.state], which
    is never set, and raises [AttributeError] on every input, e.g. ["b"]
    on the default automaton, where the copy in [automata/dfa.py] (which
    starts from [self.start]) returns [True] as the specification says, and
    [False], [True], [False] on [""], ["aab"], ["ba"]. *)
Theorem fsa_dfa_accepts_attribute_error :
  FsaPyDFA.accepts DFA.default_dfa "b" = Err (AttributeError "state") /\
  (forall (d : DFA.DFA) (s : string), FsaPyDFA.accepts d s = Err (AttributeError "state")) /\
  DFA.accepts DFA.default_dfa "b" = Ok true /\
  DFA.accepts DFA.default_dfa "" = Ok false /\
  DFA.accepts DFA.default_dfa "aab" = Ok true /\
  DFA.accepts DFA.default_dfa "ba" = Ok false.
Proof.
  split; [reflexivity|split; [|repeat split; vm_compute; reflexivity]].
  intros d s. reflexivity.
Qed.

(** ** C5, C6, C7: regular expressions *)

Lemma add_parantheses_id (s : string) : RE._add_parantheses s = s.
Proof. reflexivity. Qed.

(** C5: [_add_parantheses] tests the type of the rendered string, never a
    [RegexUnion] or [RegexConcat], so it never adds parentheses (docstring:
    "Add paranthese around an union or concat expresion"; test
    [test_start_with_concat_parentheses] expects ["(ab)*"]):
    [kleeneStar(concat(a, b))] renders as ["ab*"].  The other two examples
    hold because a union renders its own parentheses. *)
Theorem regex_render_star_concat :
  RE.regex_str (RE.make_kleene_star 1 (RE.make_concat 0 (RE.Symbol "a") (RE.Symbol "b"))) = "ab*" /\
  (forall s, RE._add_parantheses s = s) /\
  RE.regex_str (RE.make_concat 1 (RE.make_union 0 (RE.Symbol "a") (RE.Symbol "b")) (RE.Symbol "c")) = "(a|b)c" /\
  RE.regex_str (RE.make_kleene_star 1 (RE.make_union 0 (RE.Symbol "a") (RE.Symbol "b"))) = "(a|b)*".
Proof.
  split; [reflexivity|]. split; [exact add_parantheses_id|]. split; reflexivity.
Qed.

(** C6 (counterexample): [make_kleene_star] has no rule for a union with
    an [EmptyString] side: [kleeneStar(union(ε, a))] is the node
    [KleeneStar(Union(ε, a))], structurally different from
    [kleeneStar(a)] = [KleeneStar(a)]. *)
Lemma kleene_star_union_eps_not_simplified :
  RE.strip_ids (RE.make_kleene_star 1 (RE.make_union 0 RE.EmptyString (RE.Symbol "a")))
  <> RE.strip_ids (RE.make_kleene_star 2 (RE.Symbol "a")).
Proof. vm_compute. discriminate. Qed.

Lemma py_eq_refl (r : RE.regex) : RE.py_eq r r = true.
Proof. destruct r; simpl; auto using String.eqb_refl, Nat.eqb_refl. Qed.

(** C6 (amended): [make_kleene_star(E)] is [EmptyString] when [E] is
    [EmptyString] or [EmptySet] and the node [KleeneStar(E)] otherwise,
    a union with an [EmptyString] side included; the rule
    [(ε|B)* = B*] belongs to the rendering: [KleeneStar(Union(ε, B))]
    and [KleeneStar(Union(B, ε))] render as [KleeneStar(B)]. *)
Theorem kleene_star_constructor_and_rendering :
  (forall o, RE.make_kleene_star o RE.EmptyString = RE.EmptyString) /\
  (forall o, RE.make_kleene_star o RE.EmptySet = RE.EmptyString) /\
  (forall o e, RE.is_EmptyString e = false -> RE.is_EmptySet e = false ->
     RE.make_kleene_star o e = RE.RegexKleeneStar o e) /\
  (forall o o' o'' b,
     RE.regex_str (RE.RegexKleeneStar o (RE.RegexUnion o' RE.EmptyString b))
     = RE.regex_str (RE.RegexKleeneStar o'' b)) /\
  (forall o o' o'' b,
     RE.regex_str (RE.RegexKleeneStar o (RE.RegexUnion o' b RE.EmptyString))
     = RE.regex_str (RE.RegexKleeneStar o'' b)).
Proof.
  repeat split; try reflexivity.
  - intros o e H1 H2. unfold RE.make_kleene_star. now rewrite H1, H2.
  - intros o o' o'' b. simpl. destruct b; reflexivity.
Qed.

(** C7: the identities of [make_union] and [make_concat], for every
    expression [X] (Rocq equality, which implies structural equality). *)
Theorem union_concat_identities :
  forall (o : nat) (X : RE.regex),
    RE.make_union o RE.EmptySet X = X /\
    RE.make_union o X RE.EmptySet = X /\
    RE.make_union o X X = X /\
    RE.make_concat o RE.EmptyString X = X /\
    RE.make_concat o X RE.EmptyString = X /\
    RE.make_concat o RE.EmptySet X = RE.EmptySet /\
    RE.make_concat o X RE.EmptySet = RE.EmptySet.
Proof.
  intros o X. unfold RE.make_union, RE.make_concat.
  rewrite py_eq_refl.
  destruct X; simpl; repeat split; reflexivity.
Qed.

(** ** C8: the non-deterministic step *)

(** C8 (counterexample): on the automaton converted from [S -> 0S | 1],
    the synthetic final state ["[Final]"] has no outgoing edges and is not
    a key of the transition map, and [step("[Final]", "2")] returns the
    empty set although ["2"] is outside the alphabet, while
    [step("S", "2")] raises. *)
Lemma nfa_step_no_alphabet_check_for_unknown_state :
  (a <- Grammar.to_finite_automaton Grammar.g01 ;; NFA.step a "[Final]" "2") = Ok [] /\
  (a <- Grammar.to_finite_automaton Grammar.g01 ;; NFA.step a "S" "2") = Err SymbolNotInAlphabet.
Proof. split; vm_compute; reflexivity. Qed.

(** C8 (amended): [step(state, symbol)] returns the empty set, without
    looking at the symbol, when [state] is not a key of the transition map;
    for a key it raises [SymbolNotInAlphabet] when [symbol] is outside the
    alphabet (even if the state's transition dictionary is empty), and
    otherwise returns the empty set when no edge carries [symbol] and the
    set of targets when one does. *)
Theorem nfa_step_cases (a : NFA.NFA) (q sym : string) :
  (Dict.get q (NFA.delta a) = None -> NFA.step a q sym = Ok []) /\
  (forall trans, Dict.get q (NFA.delta a) = Some trans ->
     (mem sym (NFA.alphabet a) = false -> NFA.step a q sym = Err SymbolNotInAlphabet) /\
     (mem sym (NFA.alphabet a) = true -> Dict.get sym trans = None -> NFA.step a q sym = Ok []) /\
     (forall ts, mem sym (NFA.alphabet a) = true -> Dict.get sym trans = Some ts ->
        NFA.step a q sym = Ok ts)).
Proof.
  unfold NFA.step. split.
  - intros H. now rewrite H.
  - intros trans H. rewrite H. repeat split.
    + intros Hm. now rewrite Hm.
    + intros Hm Hs. rewrite Hm. simpl. now rewrite Hs.
    + intros ts Hm Hs. rewrite Hm. simpl. now rewrite Hs.
Qed.

Lemma nfa_step_cases_witness :
  Dict.get "q1" (NFA.delta eps_nfa) = Some [("b", ["q2"])] /\ NFA.step eps_nfa "q1" "b" = Ok ["q2"].
Proof.
  split; [reflexivity|].
  destruct (nfa_step_cases eps_nfa "q1" "b") as [_ H].
  destruct (H [("b", ["q2"])] eq_refl) as [_ [_ H3]].
  apply H3; reflexivity.
Defined.

(** ** The automata of two example grammars *)

Lemma filter_empty_rows (vars : list string) :
  filter (fun '(_, tr) => match tr with [] => false | _ => true end)
         (map (fun v => (v, @nil (string * list string))) vars) = [].
Proof. induction vars; simpl; auto. Qed.

Lemma g_eps_automaton (vars terms : list string) (s : string) :
  Grammar.to_finite_automaton (Grammar.g_eps vars terms s)
  = Ok (NFA.mkNFA terms [] s [s]).
Proof.
  unfold Grammar.to_finite_automaton. simpl.
  now rewrite filter_empty_rows.
Qed.

Lemma g01_automaton :
  Grammar.to_finite_automaton Grammar.g01
  = Ok (NFA.mkNFA ["0"; "1"] [("S", [("0", ["S"]); ("1", ["[Final]"])])] "S" ["[Final]"]).
Proof. vm_compute. reflexivity. Qed.

Lemma g01_loop_zeros (n : nat) : forall i,
  NFA.accepts_loop (NFA.mkNFA ["0"; "1"] [("S", [("0", ["S"]); ("1", ["[Final]"])])] "S" ["[Final]"])
    i ["S"] (zeros n ++ "1") = Ok true.
Proof.
  induction n as [|n IH]; intros i; [reflexivity|].
  simpl zeros. rewrite <- (IH (S i)). reflexivity.
Qed.

(** ** C10: the state set *)

Lemma in_get_states {V : Type} (delta : list (string * V)) (q : string) :
  In q (get_states delta) <-> exists v, Dict.get q delta = Some v.
Proof.
  unfold get_states, Dict.keys.
  induction delta as [|[k v] d IH]; simpl.
  - split; [tauto|]. intros [v H]. discriminate.
  - destruct (String.eqb q k) eqn:E.
    + apply String.eqb_eq in E. subst. split; [eauto|auto].
    + apply String.eqb_neq in E. rewrite <- IH. split.
      * intros [H|H]; [congruence|auto].
      * auto.
Qed.

Lemma init_matrix_rows (states : list string) :
  Dict.keys (ToRegex.init_matrix states) = states /\
  (forall s row, Dict.get s (ToRegex.init_matrix states) = Some row -> Dict.keys row = states).
Proof.
  unfold ToRegex.init_matrix, Dict.keys. split.
  - rewrite map_map. simpl. apply map_id.
  - intros s row.
    assert (Hgen : forall l, Dict.get s (map (fun s1 => (s1, map (fun s2 => (s2, RE.EmptySet)) states)) l)
                             = Some row -> map fst row = states).
    { induction l as [|x l IH]; simpl; [discriminate|].
      destruct (String.eqb s x); auto.
      intros H. injection H as <-. rewrite map_map. apply map_id. }
    apply Hgen.
Qed.

(** C10: [get_states] is the key set of the transition map, whatever the
    kind of automaton (its values are those of a [DFA], an [NFA], a Moore
    or a Mealy machine); so the synthetic final state ["[Final]"] of the
    automaton converted from [S -> 0S | 1], a target with no outgoing
    edges, is not a state; [to_regex] builds the rows and columns of [R]
    over exactly these keys (and then fails with [KeyError] on that
    automaton when it records the edge into ["[Final]"]). *)
Theorem get_states_are_keys :
  (forall (V : Type) (delta : list (string * V)) (q : string),
     In q (get_states delta) <-> exists v, Dict.get q delta = Some v) /\
  (a <- Grammar.to_finite_automaton Grammar.g01 ;;
   Ok (NFA.step a "S" "1", mem "[Final]" (get_states (NFA.delta a))))
    = Ok (Ok ["[Final]"], false) /\
  (forall a : ToRegex.Convertible,
     Dict.keys (ToRegex.init_matrix (get_states (ToRegex.delta a))) = get_states (ToRegex.delta a) /\
     (forall s row, Dict.get s (ToRegex.init_matrix (get_states (ToRegex.delta a))) = Some row ->
        Dict.keys row = get_states (ToRegex.delta a))) /\
  (a <- Grammar.to_finite_automaton Grammar.g01 ;; ToRegex.to_regex (ToRegex.of_nfa a))
    = Err (KeyError "[Final]").
Proof.
  split; [intros V; exact in_get_states|].
  split; [vm_compute; reflexivity|].
  split; [intros a; apply init_matrix_rows|].
  vm_compute. reflexivity.
Qed.

(** ** C3: the elimination pass *)

Lemma index_ok {V : Type} (d : list (string * V)) (k : string) (v : V) :
  Dict.index d k = Ok v <-> Dict.get k d = Some v.
Proof.
  unfold Dict.index. destruct (Dict.get k d); split; intros H; congruence.
Qed.

Lemma mget_mset (R R' : ToRegex.matrix) (i j x y : string) (v : RE.regex) :
  ToRegex.mset R i j v = Ok R' ->
  ToRegex.mget R' x y = if String.eqb x i && String.eqb y j then Ok v else ToRegex.mget R x y.
Proof.
  unfold ToRegex.mset, ToRegex.mget.
  destruct (Dict.index R i) as [row|e] eqn:Ei; simpl; [|discriminate].
  intros H. injection H as <-. apply index_ok in Ei.
  destruct (String.eqb x i) eqn:Ex.
  - apply String.eqb_eq in Ex. subst x.
    unfold Dict.index at 1. rewrite get_set_same. simpl.
    unfold Dict.index at 2. rewrite Ei. simpl.
    destruct (String.eqb y j) eqn:Ey.
    + apply String.eqb_eq in Ey. subst y. unfold Dict.index. now rewrite get_set_same.
    + apply String.eqb_neq in Ey. unfold Dict.index. now rewrite get_set_other.
  - apply String.eqb_neq in Ex. simpl.
    unfold Dict.index at 1 2. now rewrite get_set_other.
Qed.

Lemma elim_pair_reads_snapshot (k : string) (R0 R : ToRegex.matrix) (n : nat) (i j : string) :
  i <> k -> j <> k ->
  (forall x, ToRegex.mget R x k = ToRegex.mget R0 x k) ->
  (forall y, ToRegex.mget R k y = ToRegex.mget R0 k y) ->
  ToRegex.elim_pair k (R, n) (i, j) = ToRegex.elim_pair_snapshot R0 k (R, n) (i, j).
Proof.
  intros Hi Hj Hcol Hrow. unfold ToRegex.elim_pair, ToRegex.elim_pair_snapshot.
  rewrite (Hcol i), (Hcol k), (Hrow j). reflexivity.
Qed.

Lemma elim_pair_frame (k : string) (R R' : ToRegex.matrix) (n n' : nat) (i j x y : string) :
  ToRegex.elim_pair k (R, n) (i, j) = Ok (R', n') ->
  (x <> i \/ y <> j) -> ToRegex.mget R' x y = ToRegex.mget R x y.
Proof.
  unfold ToRegex.elim_pair. intros H Hxy.
  destruct (ToRegex.mget R i j); simpl in H; [|discriminate].
  destruct (ToRegex.mget R i k); simpl in H; [|discriminate].
  destruct (ToRegex.mget R k k); simpl in H; [|discriminate].
  destruct (ToRegex.mget R k j); simpl in H; [|discriminate].
  match type of H with context [ToRegex.mset R i j ?v] =>
    destruct (ToRegex.mset R i j v) as [R1|e] eqn:E end; simpl in H; [|discriminate].
  injection H as <- _. rewrite (mget_mset _ _ _ _ _ _ _ E).
  destruct Hxy as [Hx|Hy].
  - apply String.eqb_neq in Hx. now rewrite Hx.
  - apply String.eqb_neq in Hy. now rewrite Hy, andb_false_r.
Qed.

Lemma elim_fold_snapshot (k : string) (R0 : ToRegex.matrix) :
  forall (pairs : list (string * string)) (R : ToRegex.matrix) (n : nat),
    Forall (fun ij => fst ij <> k /\ snd ij <> k) pairs ->
    (forall x, ToRegex.mget R x k = ToRegex.mget R0 x k) ->
    (forall y, ToRegex.mget R k y = ToRegex.mget R0 k y) ->
    fold_result (ToRegex.elim_pair k) pairs (R, n)
    = fold_result (ToRegex.elim_pair_snapshot R0 k) pairs (R, n).
Proof.
  induction pairs as [|[i j] pairs IH]; intros R n Hall Hcol Hrow; [reflexivity|].
  inversion Hall as [|? ? [Hi Hj] Hall']; subst. simpl in Hi, Hj.
  cbn [fold_result].
  rewrite <- (elim_pair_reads_snapshot k R0 R n i j Hi Hj Hcol Hrow).
  destruct (ToRegex.elim_pair k (R, n) (i, j)) as [[R' n']|e] eqn:E; cbn [bind]; [|reflexivity].
  apply IH; auto.
  - intros x. rewrite (elim_pair_frame _ _ _ _ _ _ _ _ _ E); auto.
  - intros y. rewrite (elim_pair_frame _ _ _ _ _ _ _ _ _ E); auto.
Qed.

Lemma elim_state_snapshot (states : list string) (k : string) (R0 : ToRegex.matrix) (n : nat) :
  ToRegex.elim_state states k (R0, n)
  = fold_result (ToRegex.elim_pair_snapshot R0 k)
      (list_prod (ToRegex.remaining states k) (ToRegex.remaining states k)) (R0, n).
Proof.
  unfold ToRegex.elim_state. apply elim_fold_snapshot; auto.
  apply Forall_forall. intros [i j] Hin. apply in_prod_iff in Hin as [Hi Hj].
  unfold ToRegex.remaining in Hi, Hj. apply filter_In in Hi as [_ Hi]. apply filter_In in Hj as [_ Hj].
  simpl. split; intros ->; rewrite String.eqb_refl in *; discriminate.
Qed.

(** C3: in the copy of [to_regex] in [fsa.py] (the one of the [DFA] and
    [NFA] classes the package exports) the pass filters with
    [state != l], an unbound name: on the default automaton it raises
    [NameError] before any update.  The copy in [regex_convertible.py]
    does what the specification says: its in-place pass over the pairs
    [(i, j)] with [i, j <> k] computes exactly the pass that reads
    [R[i][k]], [R[k][k]], [R[k][j]] from the matrix the pass started
    from, and it converts the default automaton. *)
Theorem fsa_to_regex_name_error :
  FsaPyToRegex.to_regex (ToRegex.of_dfa DFA.default_dfa) = Err (NameError "l") /\
  (forall states k R0 n,
     ToRegex.elim_state states k (R0, n)
     = fold_result (ToRegex.elim_pair_snapshot R0 k)
         (list_prod (ToRegex.remaining states k) (ToRegex.remaining states k)) (R0, n)) /\
  (exists r, ToRegex.to_regex (ToRegex.of_dfa DFA.default_dfa) = Ok r).
Proof.
  split; [vm_compute; reflexivity|].
  split; [exact elim_state_snapshot|].
  eexists. vm_compute. reflexivity.
Qed.

(** ** C4: the single final state *)

Lemma mem_In (x : string) (l : list string) : mem x l = true <-> In x l.
Proof.
  unfold mem. rewrite existsb_exists. split.
  - intros [y [Hy E]]. apply String.eqb_eq in E. now subst.
  - intros H. exists x. split; auto. apply String.eqb_refl.
Qed.

Lemma mset_some (R : ToRegex.matrix) (i j : string) (v : RE.regex) :
  Dict.get i R <> None -> exists R', ToRegex.mset R i j v = Ok R'.
Proof.
  unfold ToRegex.mset, Dict.index. destruct (Dict.get i R); [|congruence].
  intros _. simpl. eauto.
Qed.

Lemma mset_rows (R R' : ToRegex.matrix) (i j x : string) (v : RE.regex) :
  ToRegex.mset R i j v = Ok R' -> Dict.get x R <> None -> Dict.get x R' <> None.
Proof.
  unfold ToRegex.mset, Dict.index. destruct (Dict.get i R) eqn:Ei; simpl; [|discriminate].
  intros H. injection H as <-.
  destruct (String.eqb x i) eqn:Ex.
  - apply String.eqb_eq in Ex. subst. rewrite get_set_same. discriminate.
  - apply String.eqb_neq in Ex. now rewrite get_set_other.
Qed.

(** The loop writing [EmptySet] into row and column [F_new]. *)
Lemma fold_reset_column (F : string) :
  forall (l : list string) (R : ToRegex.matrix),
    Dict.get F R <> None ->
    (forall s, In s l -> Dict.get s R <> None) ->
    exists R',
      fold_result (fun R state =>
          R1 <- (if String.eqb state F then Ok R else ToRegex.mset R state F RE.EmptySet) ;;
          ToRegex.mset R1 F state RE.EmptySet) l R = Ok R' /\
      (forall x, Dict.get x R <> None -> Dict.get x R' <> None) /\
      (forall x y, ToRegex.mget R' x y =
         if (String.eqb x F && mem y l) || (String.eqb y F && negb (String.eqb x F) && mem x l)
         then Ok RE.EmptySet else ToRegex.mget R x y).
Proof.
  induction l as [|s l IH]; intros R HF Hl.
  - exists R. split; [reflexivity|]. split; [auto|].
    intros x y. simpl. now rewrite !andb_false_r.
  - assert (Hs : Dict.get s R <> None) by (apply Hl; left; auto).
    destruct (String.eqb s F) eqn:EsF.
    + (* only the row entry [(F, s)] *)
      destruct (mset_some R F s RE.EmptySet HF) as [R2 E2].
      assert (HF2 : Dict.get F R2 <> None) by exact (mset_rows _ _ _ _ _ _ E2 HF).
      destruct (IH R2 HF2) as [R' [Ef [Hrows Hget]]].
      { intros t Ht. apply (mset_rows _ _ _ _ _ _ E2). apply Hl. right. auto. }
      exists R'. cbn [fold_result]. rewrite EsF. cbn [bind]. rewrite E2. cbn [bind].
      split; [exact Ef|]. split.
      { intros x Hx. apply Hrows. exact (mset_rows _ _ _ _ _ _ E2 Hx). }
      intros x y. rewrite Hget, (mget_mset _ _ _ _ _ _ _ E2).
      apply String.eqb_eq in EsF. subst s. simpl.
      destruct (String.eqb x F) eqn:ExF, (String.eqb y F) eqn:EyF, (mem y l), (mem x l);
        simpl; auto.
    + destruct (mset_some R s F RE.EmptySet Hs) as [R1 E1].
      assert (HF1 : Dict.get F R1 <> None) by exact (mset_rows _ _ _ _ _ _ E1 HF).
      destruct (mset_some R1 F s RE.EmptySet HF1) as [R2 E2].
      assert (HF2 : Dict.get F R2 <> None) by exact (mset_rows _ _ _ _ _ _ E2 HF1).
      destruct (IH R2 HF2) as [R' [Ef [Hrows Hget]]].
      { intros t Ht. apply (mset_rows _ _ _ _ _ _ E2). apply (mset_rows _ _ _ _ _ _ E1).
        apply Hl. right. auto. }
      exists R'. cbn [fold_result]. rewrite EsF. cbn [bind]. rewrite E1. cbn [bind].
      rewrite E2. cbn [bind].
      split; [exact Ef|]. split.
      { intros x Hx. apply Hrows. apply (mset_rows _ _ _ _ _ _ E2).
        exact (mset_rows _ _ _ _ _ _ E1 Hx). }
      intros x y. rewrite Hget, (mget_mset _ _ _ _ _ _ _ E2), (mget_mset _ _ _ _ _ _ _ E1).
      simpl.
      destruct (String.eqb x F) eqn:ExF, (String.eqb y F) eqn:EyF,
               (String.eqb y s) eqn:Eys, (String.eqb x s) eqn:Exs, (mem y l), (mem x l);
        simpl; auto.
      all: apply String.eqb_eq in ExF, Exs; subst; rewrite String.eqb_refl in EsF; discriminate.
Qed.

(** The loop writing [EmptyString] from every final state into [F_new]. *)
Lemma fold_final_edges (F : string) :
  forall (l : list string) (R : ToRegex.matrix),
    (forall s, In s l -> Dict.get s R <> None) ->
    exists R',
      fold_result (fun R final_state => ToRegex.mset R final_state F RE.EmptyString) l R = Ok R' /\
      (forall x y, ToRegex.mget R' x y =
         if String.eqb y F && mem x l then Ok RE.EmptyString else ToRegex.mget R x y).
Proof.
  induction l as [|f l IH]; intros R Hl.
  - exists R. split; [reflexivity|]. intros x y. simpl. now rewrite andb_false_r.
  - destruct (mset_some R f F RE.EmptyString (Hl f (or_introl eq_refl))) as [R1 E1].
    destruct (IH R1) as [R' [Ef Hget]].
    { intros t Ht. apply (mset_rows _ _ _ _ _ _ E1). apply Hl. right. auto. }
    exists R'. cbn [fold_result]. rewrite E1. cbn [bind]. split; [exact Ef|].
    intros x y. rewrite Hget, (mget_mset _ _ _ _ _ _ _ E1). simpl.
    destruct (String.eqb y F), (String.eqb x f), (mem x l); simpl; auto.
Qed.

Lemma In_set_add (x y : string) (l : list string) : In x (set_add y l) <-> x = y \/ In x l.
Proof.
  unfold set_add. destruct (mem y l) eqn:Em.
  - apply mem_In in Em. split; [auto|]. intros [->|H]; auto.
  - rewrite in_app_iff. simpl. split; intros [H|H]; intuition.
Qed.

Lemma mget_set_other (R : ToRegex.matrix) (k x y : string) (row : list (string * RE.regex)) :
  x <> k -> ToRegex.mget (Dict.set k row R) x y = ToRegex.mget R x y.
Proof. intros Hne. unfold ToRegex.mget, Dict.index at 1 3. now rewrite get_set_other. Qed.

(** C4 (counterexample): the new final state is named ["F_new"] whether
    or not a state of that name exists. Here ["F_new"] is a state with an
    edge [b] to the final state [q1]; [to_regex] picks it as the new final
    state, resets its row to [EmptySet] (the edge [b] is lost) and returns
    [EmptyString], although the automaton also accepts ["ab"]. *)
Lemma to_regex_f_new_not_fresh :
  In "F_new" (get_states (ToRegex.delta cex_fnew)) /\
  1 < length (ToRegex.final_states cex_fnew) /\
  Dict.get "F_new" (ToRegex.delta cex_fnew) = Some [("b", ToRegex.Many ["q1"])] /\
  (exists states R, to_regex_prefix cex_fnew = Ok (states, R, "F_new") /\
                    ToRegex.mget R "F_new" "q1" = Ok RE.EmptySet) /\
  ToRegex.to_regex cex_fnew = Ok RE.EmptyString.
Proof.
  split; [simpl; tauto|].
  split; [simpl; lia|].
  split; [reflexivity|].
  split; [|vm_compute; reflexivity].
  do 2 eexists. split; [reflexivity|]. vm_compute. reflexivity.
Qed.

(** C4 (amended): with more than one final state, [to_regex] adds a state
    named ["F_new"] to the states (a state of that name already present is
    reused), sets its row and column to [EmptySet], sets the entry from
    every original final state to it to [EmptyString], leaves every entry
    not in that row or column unchanged, and uses it as the sole final
    state; with exactly one final state, that state is used directly. Every
    final state is assumed to be a state with a row of the matrix. *)
Theorem single_final_choice (a : ToRegex.Convertible) (states : list string) (R : ToRegex.matrix)
  (Hrows : forall s, In s states -> Dict.get s R <> None)
  (Hfin : forall f, In f (ToRegex.final_states a) -> In f states) :
  (1 < length (ToRegex.final_states a) ->
   exists R',
     ToRegex.single_final a states R = Ok (set_add "F_new" states, R', "F_new") /\
     (forall f, In f (ToRegex.final_states a) -> ToRegex.mget R' f "F_new" = Ok RE.EmptyString) /\
     (forall s, In s (set_add "F_new" states) -> ~ In s (ToRegex.final_states a) ->
        ToRegex.mget R' s "F_new" = Ok RE.EmptySet) /\
     (forall s, In s (set_add "F_new" states) -> s <> "F_new" ->
        ToRegex.mget R' "F_new" s = Ok RE.EmptySet) /\
     (forall x y, x <> "F_new" -> y <> "F_new" -> ToRegex.mget R' x y = ToRegex.mget R x y)) /\
  (forall f, ToRegex.final_states a = [f] -> ToRegex.single_final a states R = Ok (states, R, f)).
Proof.
  split.
  - intros Hlt.
    set (R0 := Dict.set "F_new" [] R).
    set (states' := set_add "F_new" states).
    assert (HF0 : Dict.get "F_new" R0 <> None) by (unfold R0; rewrite get_set_same; discriminate).
    assert (Hrows0 : forall s, In s states' -> Dict.get s R0 <> None).
    { intros s Hs. unfold states' in Hs. apply In_set_add in Hs.
      destruct (String.eqb s "F_new") eqn:Es.
      - apply String.eqb_eq in Es. now subst.
      - apply String.eqb_neq in Es. unfold R0. rewrite get_set_other by exact Es.
        destruct Hs as [Hs|Hs]; [contradiction|auto]. }
    destruct (fold_reset_column "F_new" states' R0 HF0 Hrows0) as [R1 [E1 [Hr1 Hg1]]].
    destruct (fold_final_edges "F_new" (ToRegex.final_states a) R1) as [R2 [E2 Hg2]].
    { intros f Hf. apply Hr1, Hrows0. unfold states'. apply In_set_add. right. auto. }
    exists R2. split.
    { unfold ToRegex.single_final. rewrite (proj2 (Nat.ltb_lt _ _) Hlt). cbv zeta.
      fold states'. fold R0. rewrite E1. cbn [bind]. rewrite E2. reflexivity. }
    unfold states' in *. split; [|split; [|split]].
    + intros f Hf. rewrite Hg2. simpl. apply mem_In in Hf. now rewrite Hf.
    + intros s Hs Hnf. rewrite Hg2. simpl.
      rewrite (proj1 (not_true_iff_false _) (fun H => Hnf (proj1 (mem_In _ _) H))).
      rewrite Hg1. rewrite String.eqb_refl. simpl.
      apply mem_In in Hs. rewrite Hs.
      destruct (String.eqb s "F_new") eqn:Es; simpl.
      * apply String.eqb_eq in Es. subst. now rewrite Hs.
      * reflexivity.
    + intros s Hs Hne. rewrite Hg2.
      apply String.eqb_neq in Hne. rewrite Hne. simpl.
      rewrite Hg1. simpl. apply mem_In in Hs. now rewrite Hs.
    + intros x y Hx Hy. rewrite Hg2.
      apply String.eqb_neq in Hx, Hy. rewrite Hy. simpl.
      rewrite Hg1, Hx, Hy. simpl. unfold R0. apply mget_set_other.
      now apply String.eqb_neq.
  - intros f Hf. unfold ToRegex.single_final. rewrite Hf. reflexivity.
Qed.

Lemma single_final_choice_witness :
  exists R',
    ToRegex.single_final (ToRegex.of_nfa multi_final_nfa) ["q0"; "q1"; "q2"]
      (ToRegex.init_matrix ["q0"; "q1"; "q2"])
    = Ok (["q0"; "q1"; "q2"; "F_new"], R', "F_new") /\
    ToRegex.mget R' "q1" "F_new" = Ok RE.EmptyString /\
    ToRegex.mget R' "q0" "F_new" = Ok RE.EmptySet.
Proof.
  assert (Hrows : forall s, In s ["q0"; "q1"; "q2"] ->
                    Dict.get s (ToRegex.init_matrix ["q0"; "q1"; "q2"]) <> None).
  { intros s [<-|[<-|[<-|[]]]]; simpl; discriminate. }
  assert (Hfin : forall f, In f (ToRegex.final_states (ToRegex.of_nfa multi_final_nfa)) ->
                   In f ["q0"; "q1"; "q2"]).
  { intros f Hf. simpl in *. tauto. }
  assert (Hlt : 1 < length (ToRegex.final_states (ToRegex.of_nfa multi_final_nfa))).
  { simpl. lia. }
  destruct (proj1 (single_final_choice (ToRegex.of_nfa multi_final_nfa) ["q0"; "q1"; "q2"]
                     (ToRegex.init_matrix ["q0"; "q1"; "q2"]) Hrows Hfin) Hlt)
    as [R' [E [Hf [Hnf _]]]].
  exists R'. split; [exact E|]. split.
  - apply Hf. simpl. auto.
  - apply Hnf; simpl; [auto|]. intros [H|[H|[]]]; discriminate.
Defined.

Lemma kleene_star_constructor_and_rendering_witness :
  RE.is_EmptyString (RE.Symbol "a") = false /\
  RE.is_EmptySet (RE.Symbol "a") = false /\
  RE.make_kleene_star 0 (RE.Symbol "a") = RE.RegexKleeneStar 0 (RE.Symbol "a").
Proof.
  split; [reflexivity|]. split; [reflexivity|].
  apply (proj1 (proj2 (proj2 kleene_star_constructor_and_rendering))); reflexivity.
Defined.

(** * Further properties of the code *)

(** ** The default automaton of [FSA.__init__] *)

Lemma default_dfa_loop (s : string) :
  (forall c, In c (list_ascii_of_string s) -> c = "a"%char \/ c = "b"%char) ->
  forall i,
    DFA.accepts_loop DFA.default_dfa i "S" s
      = Ok (Nat.even (count_char "a" s) && Nat.odd (count_char "b" s)) /\
    DFA.accepts_loop DFA.default_dfa i "A" s
      = Ok (Nat.odd (count_char "a" s) && Nat.odd (count_char "b" s)) /\
    DFA.accepts_loop DFA.default_dfa i "B" s
      = Ok (Nat.odd (count_char "a" s) && Nat.even (count_char "b" s)) /\
    DFA.accepts_loop DFA.default_dfa i "F" s
      = Ok (Nat.even (count_char "a" s) && Nat.even (count_char "b" s)).
Proof.
  induction s as [|c s IH]; intros Hs i.
  - repeat split.
  - assert (Hc : c = "a"%char \/ c = "b"%char) by (apply Hs; left; reflexivity).
    assert (Hrest : forall c', In c' (list_ascii_of_string s) -> c' = "a"%char \/ c' = "b"%char)
      by (intros c' H; apply Hs; right; exact H).
    destruct (IH Hrest (S i)) as [HS [HA [HB HF]]].
    destruct Hc as [-> | ->]; cbn -[Nat.even Nat.odd]; rewrite ?HS, ?HA, ?HB, ?HF;
      rewrite ?Nat.even_succ, ?Nat.odd_succ; repeat split.
Qed.

(** [FSA.__init__] with no arguments builds the automaton its docstring
    describes: over [{a, b}], [accepts(s)] holds iff [s] has an even
    number of [a] and an odd number of [b]. *)
Theorem default_dfa_language (s : string)
  (Hs : forall c, In c (list_ascii_of_string s) -> c = "a"%char \/ c = "b"%char) :
  DFA.accepts DFA.default_dfa s
    = Ok (Nat.even (count_char "a" s) && Nat.odd (count_char "b" s)).
Proof. exact (proj1 (default_dfa_loop s Hs 0)). Qed.

Lemma default_dfa_language_witness :
  (forall c, In c (list_ascii_of_string "abab") -> c = "a"%char \/ c = "b"%char) /\
  DFA.accepts DFA.default_dfa "abab" = Ok false.
Proof.
  assert (H : forall c, In c (list_ascii_of_string "abab") -> c = "a"%char \/ c = "b"%char).
  { intros c Hc. simpl in Hc. repeat destruct Hc as [Hc|Hc]; subst; auto; contradiction. }
  split; [exact H|].
  rewrite (default_dfa_language "abab" H). reflexivity.
Defined.

(** ** Errors of [DFA.accepts] *)

Lemma dfa_accepts_loop_invalid (d : DFA.DFA) (i : nat) :
  forall s k q, DFA.accepts_loop d k q s = Err (InvalidInputSymbol i) ->
  k <= i /\
  exists c, String.get (i - k) s = Some c /\ mem (chr c) (DFA.alphabet d) = false /\
    (forall j c', j < i - k -> String.get j s = Some c' -> mem (chr c') (DFA.alphabet d) = true).
Proof.
  induction s as [|c s IH]; intros k q H; simpl in H; [discriminate|].
  destruct (mem (chr c) (DFA.alphabet d)) eqn:Ec; simpl in H.
  - destruct (DFA.step d q (chr c)) as [q'|e] eqn:Eq; simpl in H.
    + destruct (IH (S k) q' H) as [Hle [c0 [Hg [Hm Hbefore]]]].
      split; [lia|]. exists c0.
      replace (i - k) with (S (i - S k)) by lia. simpl.
      split; [exact Hg|]. split; [exact Hm|].
      intros [|j] c' Hj Hget; simpl in Hget.
      * injection Hget as <-. exact Ec.
      * apply (Hbefore j c'); [lia|exact Hget].
    + destruct q; unfold DFA.step in Eq;
        repeat match type of Eq with
        | context [match ?x with _ => _ end] => destruct x
        end; congruence.
  - injection H as <-. split; [lia|]. exists c. rewrite Nat.sub_diag. simpl.
    split; [reflexivity|]. split; [exact Ec|]. intros j c' Hj. lia.
Qed.

(** The position [i] that [DFA.accepts] reports with [InvalidInputSymbol i]
    is the position of a character outside the alphabet, and every
    character before it is in the alphabet: the first such character. *)
Theorem dfa_accepts_invalid_symbol_position (d : DFA.DFA) (s : string) (i : nat) :
  DFA.accepts d s = Err (InvalidInputSymbol i) ->
  exists c, String.get i s = Some c /\ mem (chr c) (DFA.alphabet d) = false /\
    (forall j c', j < i -> String.get j s = Some c' -> mem (chr c') (DFA.alphabet d) = true).
Proof.
  intros H. destruct (dfa_accepts_loop_invalid d i s 0 (DFA.start d) H) as [_ Hc].
  now rewrite Nat.sub_0_r in Hc.
Qed.

Lemma dfa_accepts_invalid_symbol_position_witness :
  DFA.accepts DFA.default_dfa "abcb" = Err (InvalidInputSymbol 2) /\
  exists c, String.get 2 "abcb" = Some c /\ mem (chr c) (DFA.alphabet DFA.default_dfa) = false /\
    (forall j c', j < 2 -> String.get j "abcb" = Some c' ->
                  mem (chr c') (DFA.alphabet DFA.default_dfa) = true).
Proof.
  assert (H : DFA.accepts DFA.default_dfa "abcb" = Err (InvalidInputSymbol 2)) by reflexivity.
  split; [exact H|].
  exact (dfa_accepts_invalid_symbol_position DFA.default_dfa "abcb" 2 H).
Defined.

(** ** Moore machines *)

Lemma moore_step_dfa_step {O : Type} (m : Moore.Moore O) (q sym : string) :
  Moore.step m q sym = DFA.step (moore_as_dfa m) q sym.
Proof. reflexivity. Qed.

Lemma moore_step_not_invalid {O : Type} (m : Moore.Moore O) (q sym : string) (i : nat) :
  Moore.step m q sym <> Err (InvalidInputSymbol i).
Proof.
  unfold Moore.step.
  destruct (Dict.get q (Moore.delta m)); [|discriminate].
  destruct (negb _); [discriminate|].
  destruct (Dict.get sym _); discriminate.
Qed.

(** A Moore machine's [accepts] and the [DFA]'s [accepts] on the same
    alphabet, transitions, start and final states succeed on the same
    strings with the same answer; they differ in their errors only: the
    Moore machine leaves a character outside the alphabet to [step] and
    never reports its position. *)
Theorem moore_accepts_as_dfa {O : Type} (m : Moore.Moore O) (s : string) :
  (forall b, Moore.accepts m s = Ok b <-> DFA.accepts (moore_as_dfa m) s = Ok b) /\
  (forall i, Moore.accepts m s <> Err (InvalidInputSymbol i)).
Proof.
  unfold Moore.accepts, DFA.accepts. simpl.
  generalize 0 as k. generalize (Moore.start m) as q.
  induction s as [|c s IH]; intros q k; simpl.
  - split; [tauto|discriminate].
  - rewrite moore_step_dfa_step.
    destruct (mem (chr c) (Moore.alphabet m)) eqn:Ec; simpl.
    + destruct (DFA.step (moore_as_dfa m) q (chr c)) as [q'|e] eqn:Eq; simpl.
      * exact (IH q' (S k)).
      * split; [split; discriminate|].
        intros i Hi. injection Hi as ->.
        rewrite <- moore_step_dfa_step in Eq. exact (moore_step_not_invalid m q (chr c) i Eq).
    + unfold DFA.step; simpl.
      destruct (Dict.get q (Moore.delta m)); simpl; rewrite ?Ec; simpl;
        (split; [split; discriminate|discriminate]).
Qed.

Lemma moore_process_loop_app {O : Type} (no_output : O) (m : Moore.Moore O) :
  forall s q outs res,
  Moore.process_loop no_output m q s outs = Ok res ->
  exists tail, res = (outs ++ tail)%list /\ length tail = String.length s.
Proof.
  induction s as [|c s IH]; intros q outs res H; simpl in H.
  - injection H as <-. exists []. now rewrite app_nil_r.
  - destruct (Moore.step m q (chr c)) as [q'|e]; simpl in H; [|discriminate].
    destruct (IH _ _ _ H) as [tail [-> Hl]].
    exists (Moore.get_output no_output m q' :: tail).
    rewrite <- app_assoc. simpl. split; [reflexivity|]. simpl. now rewrite Hl.
Qed.

Lemma moore_process_loop_prefix {O : Type} (no_output : O) (m : Moore.Moore O) :
  forall s t q outs res,
  Moore.process_loop no_output m q (s ++ t) outs = Ok res ->
  Moore.process_loop no_output m q s outs = Ok (firstn (length outs + String.length s) res).
Proof.
  induction s as [|c s IH]; intros t q outs res H; simpl in H |- *.
  - destruct (moore_process_loop_app no_output m t q outs res H) as [tail [-> _]].
    rewrite Nat.add_0_r, firstn_app, Nat.sub_diag, firstn_all. simpl. now rewrite app_nil_r.
  - destruct (Moore.step m q (chr c)) as [q'|e]; simpl in H |- *; [|discriminate].
    rewrite (IH t q' _ res H). f_equal. f_equal. rewrite length_app. simpl. lia.
Qed.

Lemma moore_process_loop_accepts {O : Type} (no_output : O) (m : Moore.Moore O) :
  forall s q outs,
  (exists res, Moore.process_loop no_output m q s outs = Ok res) <->
  (exists b, Moore.accepts_loop m q s = Ok b).
Proof.
  induction s as [|c s IH]; intros q outs; simpl.
  - split; eauto.
  - destruct (Moore.step m q (chr c)) as [q'|e]; simpl; [apply IH|].
    split; intros [x Hx]; discriminate.
Qed.

(** [process_input(s)] of a Moore machine returns one output more than
    there are characters: the output of the start state, then the output
    of each state reached; the outputs for a prefix of the input are a
    prefix of the outputs; and it fails exactly when [accepts(s)] fails. *)
Theorem moore_process_input_outputs {O : Type} (no_output : O) (m : Moore.Moore O) (s : string) :
  (forall outs, Moore.process_input no_output m s = Ok outs ->
     length outs = S (String.length s) /\
     hd_error outs = Some (Moore.get_output no_output m (Moore.start m))) /\
  (forall t outs, Moore.process_input no_output m (s ++ t) = Ok outs ->
     Moore.process_input no_output m s = Ok (firstn (S (String.length s)) outs)) /\
  ((exists outs, Moore.process_input no_output m s = Ok outs) <->
   (exists b, Moore.accepts m s = Ok b)).
Proof.
  unfold Moore.process_input, Moore.accepts. split; [|split].
  - intros outs H. destruct (moore_process_loop_app no_output m s _ _ _ H) as [tail [-> Hl]].
    simpl. now rewrite Hl.
  - intros t outs H. exact (moore_process_loop_prefix no_output m s t _ _ outs H).
  - apply moore_process_loop_accepts.
Qed.

Lemma moore_process_input_outputs_witness :
  Moore.process_input 0 (Moore.init 0 ["a"; "b"] (DFA.delta DFA.default_dfa) "S" ["F"]
    (Some [("S", 0); ("A", 1); ("B", 2); ("F", 3)])) "ab" = Ok [0; 1; 2] /\
  length [0; 1; 2] = 3 /\ hd_error [0; 1; 2] = Some 0.
Proof.
  assert (H : Moore.process_input 0 (Moore.init 0 ["a"; "b"] (DFA.delta DFA.default_dfa) "S" ["F"]
    (Some [("S", 0); ("A", 1); ("B", 2); ("F", 3)])) "ab" = Ok [0; 1; 2]) by reflexivity.
  split; [exact H|].
  exact (proj1 (moore_process_input_outputs 0 _ "ab") [0; 1; 2] H).
Defined.

(** ** Mealy machines *)

Lemma get_default_map {V W : Type} (x : W) (delta : list (string * V)) (q : string) (v : V) :
  Dict.get q delta = Some v -> Dict.get q (map (fun state => (state, x)) (get_states delta)) = Some x.
Proof.
  unfold get_states, Dict.keys. induction delta as [|[k v'] d IH]; simpl; [discriminate|].
  destruct (String.eqb q k); auto.
Qed.

Lemma mealy_process_loop_app (m : Mealy.Mealy) :
  forall s q outs res,
  Mealy.process_loop m q s outs = Ok res ->
  exists tail, res = (outs ++ tail)%list /\ length tail = String.length s.
Proof.
  induction s as [|c s IH]; intros q outs res H; simpl in H.
  - injection H as <-. exists []. now rewrite app_nil_r.
  - destruct (Mealy.step m q (chr c)) as [[q' o]|e]; simpl in H; [|discriminate].
    destruct (IH _ _ _ H) as [tail [-> Hl]].
    exists (o :: tail). rewrite <- app_assoc. simpl. split; [reflexivity|]. simpl. now rewrite Hl.
Qed.

Lemma mealy_process_loop_prefix (m : Mealy.Mealy) :
  forall s t q outs res,
  Mealy.process_loop m q (s ++ t) outs = Ok res ->
  Mealy.process_loop m q s outs = Ok (firstn (length outs + String.length s) res).
Proof.
  induction s as [|c s IH]; intros t q outs res H; simpl in H |- *.
  - destruct (mealy_process_loop_app m t q outs res H) as [tail [-> _]].
    rewrite Nat.add_0_r, firstn_app, Nat.sub_diag, firstn_all. simpl. now rewrite app_nil_r.
  - destruct (Mealy.step m q (chr c)) as [[q' o]|e]; simpl in H |- *; [|discriminate].
    rewrite (IH t q' _ res H). f_equal. f_equal. rewrite length_app. simpl. lia.
Qed.

(** [process_input(s)] of a Mealy machine returns one output per input
    character, and the outputs for a prefix of the input are a prefix of
    the outputs. *)
Theorem mealy_process_input_outputs (m : Mealy.Mealy) (s : string) :
  (forall outs, Mealy.process_input m s = Ok outs -> length outs = String.length s) /\
  (forall t outs, Mealy.process_input m (s ++ t) = Ok outs ->
     Mealy.process_input m s = Ok (firstn (String.length s) outs)).
Proof.
  unfold Mealy.process_input. split.
  - intros outs H. destruct (mealy_process_loop_app m s _ _ _ H) as [tail [-> Hl]]. exact Hl.
  - intros t outs H. exact (mealy_process_loop_prefix m s t _ [] outs H).
Qed.

Lemma mealy_process_input_outputs_witness :
  Mealy.process_input (Mealy.init ["a"; "b"] (DFA.delta DFA.default_dfa) "S"
    (Some [("S", Mealy.OutDict [("a", "x")]); ("A", Mealy.OutDict [("b", "y")])])) "ab"
    = Ok ["x"; "y"] /\
  length ["x"; "y"] = String.length "ab".
Proof.
  assert (H : Mealy.process_input (Mealy.init ["a"; "b"] (DFA.delta DFA.default_dfa) "S"
    (Some [("S", Mealy.OutDict [("a", "x")]); ("A", Mealy.OutDict [("b", "y")])])) "ab"
    = Ok ["x"; "y"]) by reflexivity.
  split; [exact H|].
  exact (proj1 (mealy_process_input_outputs _ "ab") ["x"; "y"] H).
Defined.

(** A Mealy machine built without an [output] table maps every state to
    the string [""], on which [get_output] calls [.get]: [process_input]
    succeeds on the empty string only, and the first step that passes the
    checks of [step] raises [AttributeError]. *)
Theorem mealy_default_output_attribute_error
  (alphabet : list string) (delta : list (string * list (string * string))) (start : string) :
  (forall s outs, Mealy.process_input (Mealy.init alphabet delta start None) s = Ok outs ->
     s = EmptyString /\ outs = []) /\
  (forall c rest trans next_state,
     Dict.get start delta = Some trans -> mem (chr c) alphabet = true ->
     Dict.get (chr c) trans = Some next_state ->
     Mealy.process_input (Mealy.init alphabet delta start None) (String c rest)
       = Err (AttributeError "get")).
Proof.
  split.
  - intros [|c s] outs H.
    + unfold Mealy.process_input in H. simpl in H. injection H as <-. auto.
    + exfalso. unfold Mealy.process_input in H. simpl in H.
      unfold Mealy.step, Mealy.get_output in H.
      cbn [Mealy.init Mealy.delta Mealy.output Mealy.alphabet Mealy.start] in H.
      destruct (Dict.get start delta) as [trans|] eqn:Es; cbn [bind] in H; [|discriminate].
      rewrite (get_default_map (Mealy.OutStr "") delta start trans Es) in H.
      destruct (negb (mem (chr c) alphabet)); cbn [bind] in H; [discriminate|].
      destruct (Dict.get (chr c) trans); cbn [bind] in H; discriminate.
  - intros c rest trans next_state Es Ec Et.
    unfold Mealy.process_input. simpl. unfold Mealy.step, Mealy.get_output.
    cbn [Mealy.init Mealy.delta Mealy.output Mealy.alphabet Mealy.start].
    rewrite Es, Ec, Et. cbn [negb bind].
    now rewrite (get_default_map (Mealy.OutStr "") delta start trans Es).
Qed.

Lemma mealy_default_output_attribute_error_witness :
  Dict.get "S" (DFA.delta DFA.default_dfa) = Some [("a", "A"); ("b", "F")] /\
  mem (chr "a") ["a"; "b"] = true /\
  Mealy.process_input (Mealy.init ["a"; "b"] (DFA.delta DFA.default_dfa) "S" None) "ab"
    = Err (AttributeError "get").
Proof.
  split; [reflexivity|]. split; [reflexivity|].
  exact (proj2 (mealy_default_output_attribute_error ["a"; "b"] (DFA.delta DFA.default_dfa) "S")
           "a"%char "b" [("a", "A"); ("b", "F")] "A" eq_refl eq_refl eq_refl).
Defined.

(** ** Epsilon closure *)

Section EpsClosure.
Variable a : NFA.NFA.

Local Abbreviation T := (NFAReach.all_eps_targets a).

(** The states of [T] not yet in the closure. *)
Local Abbreviation cnt c := (length (filter (fun t => negb (mem t c)) T)).

Lemma all_eps_targets_length : length T = NFA.eps_edges a.
Proof.
  unfold NFAReach.all_eps_targets, NFA.eps_edges.
  induction (NFA.delta a) as [|[q tr] d IH]; simpl; [reflexivity|].
  destruct (Dict.get "" tr); rewrite ?length_app; lia.
Qed.

Lemma eps_targets_in_all (q r : string) : In r (NFAReach.eps_targets a q) -> In r T.
Proof.
  unfold NFAReach.eps_targets, NFAReach.all_eps_targets.
  induction (NFA.delta a) as [|[k tr] d IH]; simpl; [tauto|].
  destruct (String.eqb q k).
  - destruct (Dict.get "" tr); [|simpl; tauto]. intros H. apply in_or_app. auto.
  - intros H. specialize (IH H). destruct (Dict.get "" tr); auto. apply in_or_app. auto.
Qed.

Lemma closure_loop_unfold (f : nat) (c : list string) (q : string) (st : list string) :
  NFA.closure_loop a (S f) c (q :: st)
  = let '(c', st') := fold_left NFA.push_new (NFAReach.eps_targets a q) (c, st) in
    NFA.closure_loop a f c' st'.
Proof.
  simpl. unfold NFAReach.eps_targets.
  destruct (Dict.get q (NFA.delta a)) as [tr|]; [|reflexivity].
  destruct (Dict.get "" tr); reflexivity.
Qed.

Lemma filter_length_le (p p' : string -> bool) (l : list string) :
  (forall t, In t l -> p' t = true -> p t = true) ->
  length (filter p' l) <= length (filter p l).
Proof.
  induction l as [|t l IH]; intros H; simpl; [lia|].
  assert (IH' := IH (fun t' Ht' => H t' (or_intror Ht'))).
  destruct (p' t) eqn:E'.
  - rewrite (H t (or_introl eq_refl) E'). simpl. lia.
  - destruct (p t); simpl; lia.
Qed.

Lemma filter_length_lt (p p' : string -> bool) (l : list string) (x : string) :
  (forall t, In t l -> p' t = true -> p t = true) ->
  In x l -> p x = true -> p' x = false ->
  length (filter p' l) < length (filter p l).
Proof.
  induction l as [|t l IH]; intros H Hx Hp Hp'; simpl; [destruct Hx|].
  assert (Hle := filter_length_le p p' l (fun t' Ht' => H t' (or_intror Ht'))).
  destruct Hx as [<-|Hx].
  - rewrite Hp, Hp'. simpl. lia.
  - specialize (IH (fun t' Ht' => H t' (or_intror Ht')) Hx Hp Hp').
    destruct (p' t) eqn:E'.
    + rewrite (H t (or_introl eq_refl) E'). simpl. lia.
    + destruct (p t); simpl; lia.
Qed.

Lemma cnt_mono (c c' : list string) : (forall x, In x c -> In x c') -> cnt c' <= cnt c.
Proof.
  intros H. apply filter_length_le. intros t _ Ht.
  apply negb_true_iff in Ht. apply negb_true_iff.
  apply not_true_iff_false. intros Hc. apply mem_In, H, mem_In in Hc. congruence.
Qed.

(** The [for next_state in self.delta[state]['']] loop. *)
Lemma push_new_fold (ts : list string) :
  (forall t, In t ts -> In t T) ->
  forall c st c' st', fold_left NFA.push_new ts (c, st) = (c', st') ->
  (forall x, In x c -> In x c') /\
  (forall x, In x ts -> In x c') /\
  (forall x, In x c' -> In x c \/ In x st') /\
  (forall x, In x st -> In x st') /\
  (forall x, In x st' -> In x st \/ (In x c' /\ In x ts)) /\
  (NoDup c -> NoDup c') /\
  length st' + cnt c' <= length st + cnt c.
Proof.
  induction ts as [|x ts IH]; intros HT c st c' st' E; simpl in E.
  - injection E as <- <-. repeat split; auto; simpl; tauto.
  - assert (HT' : forall t, In t ts -> In t T) by (intros t Ht; apply HT; now right).
    destruct (mem x c) eqn:Ex.
    + destruct (IH HT' c st c' st' E) as [H1 [H2 [H3 [H4 [H5 [H6 H7]]]]]].
      repeat split; auto.
      * intros y [<-|Hy]; auto. apply H1, mem_In, Ex.
      * intros y Hy. destruct (H5 y Hy) as [Hy'|[Hy1 Hy2]]; auto. right. split; auto. now right.
    + destruct (IH HT' (c ++ [x])%list (x :: st) c' st' E) as [H1 [H2 [H3 [H4 [H5 [H6 H7]]]]]].
      repeat split.
      * intros y Hy. apply H1, in_or_app. auto.
      * intros y [<-|Hy]; auto. apply H1, in_or_app. right. now left.
      * intros y Hy. destruct (H3 y Hy) as [Hy'|Hy']; auto.
        apply in_app_or in Hy'. destruct Hy' as [Hy'|[<-|[]]]; auto.
        right. apply H4. now left.
      * intros y Hy. apply H4. now right.
      * intros y Hy. destruct (H5 y Hy) as [[<-|Hy']|[Hy1 Hy2]]; auto.
        -- right. split; [|now left]. apply H1, in_or_app. right. now left.
        -- right. split; auto. now right.
      * intros Hnd. apply H6. apply NoDup_app; auto using NoDup_cons, NoDup_nil.
        intros y Hy [<-|[]]. apply mem_In in Hy. congruence.
      * assert (Hlt : cnt (c ++ [x])%list < cnt c).
        { apply (filter_length_lt _ _ _ x).
          - intros t _ Ht. apply negb_true_iff in Ht. apply negb_true_iff.
            apply not_true_iff_false. intros Hc. apply mem_In in Hc.
            assert (Hc' : In t (c ++ [x])%list) by (apply in_or_app; auto).
            apply mem_In in Hc'. congruence.
          - apply HT. now left.
          - now rewrite Ex.
          - apply negb_false_iff, mem_In, in_or_app. right. now left. }
        simpl in H7. lia.
Qed.

Variable R : string -> Prop.
Hypothesis R_step : forall q r, R q -> In r (NFAReach.eps_targets a q) -> R r.

Lemma closure_loop_sound :
  forall fuel c st,
  (forall x, In x c -> R x) -> (forall x, In x st -> In x c) ->
  forall x, In x (NFA.closure_loop a fuel c st) -> R x.
Proof.
  induction fuel as [|f IH]; intros c st Hc Hst; [exact Hc|].
  destruct st as [|q st]; [exact Hc|].
  rewrite closure_loop_unfold.
  destruct (fold_left NFA.push_new (NFAReach.eps_targets a q) (c, st)) as [c' st'] eqn:E.
  destruct (push_new_fold _ (eps_targets_in_all q) c st c' st' E)
    as [H1 [H2 [H3 [H4 [H5 _]]]]].
  assert (Hq : R q) by (apply Hc, Hst; now left).
  apply IH.
  - intros x Hx. destruct (H3 x Hx) as [Hx'|Hx']; auto.
    destruct (H5 x Hx') as [Hx''|[_ Hx'']].
    + apply Hc, Hst. now right.
    + exact (R_step q x Hq Hx'').
  - intros x Hx. destruct (H5 x Hx) as [Hx'|[Hx' _]]; auto.
    apply H1, Hst. now right.
Qed.

Lemma closure_loop_complete :
  forall fuel c st,
  length st + cnt c < fuel ->
  (forall x, In x st -> In x c) ->
  (forall p, In p c -> ~ In p st -> forall r, In r (NFAReach.eps_targets a p) -> In r c) ->
  (forall x, In x c -> In x (NFA.closure_loop a fuel c st)) /\
  (forall p, In p (NFA.closure_loop a fuel c st) ->
     forall r, In r (NFAReach.eps_targets a p) -> In r (NFA.closure_loop a fuel c st)).
Proof.
  induction fuel as [|f IH]; intros c st Hfuel Hst HI; [lia|].
  destruct st as [|q st].
  - simpl. split; [auto|]. intros p Hp r Hr. exact (HI p Hp (fun H => H) r Hr).
  - rewrite closure_loop_unfold.
    destruct (fold_left NFA.push_new (NFAReach.eps_targets a q) (c, st)) as [c' st'] eqn:E.
    destruct (push_new_fold _ (eps_targets_in_all q) c st c' st' E)
      as [H1 [H2 [H3 [H4 [H5 [_ H7]]]]]].
    destruct (IH c' st') as [J1 J2].
    + simpl in Hfuel. lia.
    + intros x Hx. destruct (H5 x Hx) as [Hx'|[Hx' _]]; auto.
      apply H1, Hst. now right.
    + intros p Hp Hnp r Hr. destruct (H3 p Hp) as [Hpc|Hps]; [|contradiction].
      destruct (string_dec p q) as [->|Hne].
      * now apply H2.
      * apply H1. apply (HI p Hpc); auto.
        intros [Hpq|Hps]; [congruence|]. apply Hnp, H4, Hps.
    + split; auto.
Qed.

Lemma closure_loop_nodup :
  forall fuel c st, NoDup c -> NoDup (NFA.closure_loop a fuel c st).
Proof.
  induction fuel as [|f IH]; intros c st Hc; [exact Hc|].
  destruct st as [|q st]; [exact Hc|].
  rewrite closure_loop_unfold.
  destruct (fold_left NFA.push_new (NFAReach.eps_targets a q) (c, st)) as [c' st'] eqn:E.
  destruct (push_new_fold _ (eps_targets_in_all q) c st c' st' E)
    as [_ [_ [_ [_ [_ [H6 _]]]]]].
  apply IH, H6, Hc.
Qed.

End EpsClosure.

(** [epsilon_closure(states)] is exactly the set of states reachable from
    [states] by epsilon edges (the loop always runs to an empty stack
    within its bound), and it holds no state twice when [states] holds
    none twice. *)
Theorem epsilon_closure_reachable (a : NFA.NFA) (states : list string) :
  (forall x, In x (NFA.epsilon_closure a states) <-> NFAReach.eps_reach a states x) /\
  (NoDup states -> NoDup (NFA.epsilon_closure a states)).
Proof.
  unfold NFA.epsilon_closure. split; [|apply closure_loop_nodup].
  destruct (closure_loop_complete a (S (length states + NFA.eps_edges a)) states (rev states))
    as [J1 J2].
  - rewrite length_rev, <- (all_eps_targets_length a).
    assert (H := filter_length_le (fun _ => true) (fun t => negb (mem t states))
                   (NFAReach.all_eps_targets a) (fun _ _ _ => eq_refl)).
    rewrite filter_true in H. lia.
  - intros x Hx. now apply (in_rev states x).
  - intros p Hp Hnp. exfalso. apply Hnp. now apply (in_rev states p).
  - intros x. split.
    + apply (closure_loop_sound a (NFAReach.eps_reach a states)).
      * intros q r Hq Hr. exact (NFAReach.reach_edge a states q r Hq Hr).
      * intros y Hy. now apply NFAReach.reach_here.
      * intros y Hy. now apply (in_rev states y).
    + intros Hx. induction Hx as [q Hq|q r _ IHq Hr].
      * now apply J1.
      * exact (J2 q IHq r Hr).
Qed.

Lemma epsilon_closure_reachable_witness :
  NoDup ["q0"] /\ NoDup (NFA.epsilon_closure eps_nfa ["q0"]) /\
  NFA.epsilon_closure eps_nfa ["q0"] = ["q0"; "q1"].
Proof.
  assert (H : NoDup ["q0"]) by (constructor; [simpl; tauto|constructor]).
  split; [exact H|]. split; [|vm_compute; reflexivity].
  exact (proj2 (epsilon_closure_reachable eps_nfa ["q0"]) H).
Defined.

(** ** One step on a set of states *)

Lemma In_set_update (s t : list string) (x : string) :
  In x (set_update s t) <-> In x s \/ In x t.
Proof.
  unfold set_update. revert s. induction t as [|y t IH]; intros s; simpl.
  - tauto.
  - rewrite IH, In_set_add. intuition (subst; auto).
Qed.

Lemma step_nfa_loop_members (a : NFA.NFA) (sym : string) :
  forall states acc ns, NFA.step_nfa_loop a states sym acc = Ok ns ->
  forall x, In x ns <-> In x acc \/
    exists q ts, In q states /\ NFA.step a q sym = Ok ts /\ In x ts.
Proof.
  induction states as [|q states IH]; intros acc ns H x; simpl in H.
  - injection H as <-. split; [auto|]. intros [Hx|[q [ts [[] _]]]]; auto.
  - destruct (NFA.step a q sym) as [ts|e] eqn:Eq; simpl in H; [|discriminate].
    rewrite (IH _ _ H x), In_set_update. split.
    + intros [[Hx|Hx]|[q' [ts' [Hq' [E' Hx]]]]]; auto.
      * right. exists q, ts. simpl. auto.
      * right. exists q', ts'. simpl. auto.
    + intros [Hx|[q' [ts' [[<-|Hq'] [E' Hx]]]]]; auto.
      * rewrite Eq in E'. injection E' as <-. auto.
      * right. exists q', ts'. auto.
Qed.

Lemma step_outside_alphabet (a : NFA.NFA) (q sym : string) :
  mem sym (NFA.alphabet a) = false ->
  NFA.step a q sym = if mem q (get_states (NFA.delta a)) then Err SymbolNotInAlphabet else Ok [].
Proof.
  intros Hs. unfold NFA.step. rewrite Hs. simpl.
  destruct (Dict.get q (NFA.delta a)) eqn:E.
  - assert (H : In q (get_states (NFA.delta a))) by (apply in_get_states; eauto).
    apply mem_In in H. now rewrite H.
  - destruct (mem q (get_states (NFA.delta a))) eqn:Em; [|reflexivity].
    apply mem_In, in_get_states in Em. destruct Em as [v Ev]. congruence.
Qed.

Lemma step_nfa_loop_outside (a : NFA.NFA) (sym : string) :
  mem sym (NFA.alphabet a) = false ->
  forall states acc,
  NFA.step_nfa_loop a states sym acc
  = if existsb (fun q => mem q (get_states (NFA.delta a))) states
    then Err SymbolNotInAlphabet else Ok acc.
Proof.
  intros Hs states. induction states as [|q states IH]; intros acc; simpl; [reflexivity|].
  rewrite (step_outside_alphabet a q sym Hs).
  destruct (mem q (get_states (NFA.delta a))); simpl; [reflexivity|].
  rewrite IH. unfold set_update. simpl. reflexivity.
Qed.

(** [step_nfa(states, symbol)] with a symbol of the alphabet is the
    epsilon-closure of the union of the [step] results of the states;
    with a symbol outside the alphabet it raises exactly when one of the
    states has a row in the transition map, and returns the empty set
    otherwise. *)
Theorem step_nfa_union (a : NFA.NFA) (states : list string) (sym : string) :
  (mem sym (NFA.alphabet a) = true ->
   exists ns, NFA.step_nfa a states sym = Ok (NFA.epsilon_closure a ns) /\
     forall x, In x ns <-> exists q ts, In q states /\ NFA.step a q sym = Ok ts /\ In x ts) /\
  (mem sym (NFA.alphabet a) = false ->
   (NFA.step_nfa a states sym = Err SymbolNotInAlphabet <->
    exists q, In q states /\ In q (get_states (NFA.delta a))) /\
   ((forall q, In q states -> ~ In q (get_states (NFA.delta a))) ->
    NFA.step_nfa a states sym = Ok [])).
Proof.
  split.
  - intros Hs. unfold NFA.step_nfa. rewrite (nfa_step_nfa_loop_in_alphabet a sym Hs states []).
    eexists. split; [reflexivity|]. intros x.
    rewrite (step_nfa_loop_members a sym states [] _
               (nfa_step_nfa_loop_in_alphabet a sym Hs states []) x).
    simpl. split; [intros [[]|H]; exact H|auto].
  - intros Hs. unfold NFA.step_nfa. rewrite (step_nfa_loop_outside a sym Hs states []).
    split.
    + destruct (existsb _ states) eqn:E; simpl.
      * apply existsb_exists in E. destruct E as [q [Hq Hk]]. apply mem_In in Hk.
        split; eauto.
      * split; [discriminate|]. intros [q [Hq Hk]]. apply mem_In in Hk.
        assert (E' : existsb (fun q => mem q (get_states (NFA.delta a))) states = true)
          by (apply existsb_exists; eauto).
        congruence.
    + intros Hnone. destruct (existsb _ states) eqn:E; [|reflexivity].
      apply existsb_exists in E. destruct E as [q [Hq Hk]]. apply mem_In in Hk.
      exfalso. exact (Hnone q Hq Hk).
Qed.

Lemma step_nfa_union_witness :
  NFA.step_nfa eps_nfa ["q0"; "q1"] "c" = Err SymbolNotInAlphabet /\
  mem "a" (NFA.alphabet eps_nfa) = true /\
  (exists ns, NFA.step_nfa eps_nfa ["q0"; "q1"] "a" = Ok (NFA.epsilon_closure eps_nfa ns)) /\
  NFA.step_nfa eps_nfa ["x"] "c" = Ok [].
Proof.
  split.
  - apply (proj1 (proj2 (step_nfa_union eps_nfa ["q0"; "q1"] "c") eq_refl)).
    exists "q0". split; simpl; auto.
  - split; [reflexivity|]. split.
    + destruct (proj1 (step_nfa_union eps_nfa ["q0"; "q1"] "a") eq_refl) as [ns [E _]].
      eauto.
    + apply (proj2 (proj2 (step_nfa_union eps_nfa ["x"] "c") eq_refl)).
      intros q [<-|[]]. simpl. intros [H|[H|[H|[]]]]; discriminate.
Defined.

(** ** Grammar to automaton *)

Lemma keys_set_existing {V : Type} (k : string) (v : V) (d : list (string * V)) :
  In k (Dict.keys d) -> Dict.keys (Dict.set k v d) = Dict.keys d.
Proof.
  unfold Dict.keys. induction d as [|[k' v'] d IH]; simpl; [tauto|].
  intros H. destruct (String.eqb k k') eqn:E; simpl.
  - apply String.eqb_eq in E. now subst.
  - f_equal. apply IH. destruct H as [H|H]; auto.
    subst. rewrite String.eqb_refl in E. discriminate.
Qed.

Lemma In_set_pair {V : Type} (k k' : string) (v v' : V) (d : list (string * V)) :
  In (k', v') (Dict.set k v d) -> (k' = k /\ v' = v) \/ In (k', v') d.
Proof.
  induction d as [|[k0 v0] d IH]; simpl.
  - intros [H|[]]. injection H as <- <-. auto.
  - destruct (String.eqb k k0); simpl.
    + intros [H|H]; [injection H as <- <-; auto|auto].
    + intros [H|H]; auto. destruct (IH H); auto.
Qed.

Lemma get_In {V : Type} (k : string) (v : V) (d : list (string * V)) :
  Dict.get k d = Some v -> In (k, v) d.
Proof.
  induction d as [|[k' v'] d IH]; simpl; [discriminate|].
  destruct (String.eqb k k') eqn:E.
  - intros H. injection H as <-. apply String.eqb_eq in E. subst. now left.
  - intros H. right. auto.
Qed.

Lemma add_edge_ok (terms : list string) (tr : Grammar.transitions_t) (v t x : string) :
  In v (Dict.keys tr) -> GrammarChecks.labels_in terms tr -> In t terms ->
  exists tr', Grammar.add_edge tr v t x = Ok tr' /\ Dict.keys tr' = Dict.keys tr /\
              GrammarChecks.labels_in terms tr'.
Proof.
  intros Hv Hl Ht. apply (in_get_states tr v) in Hv. destruct Hv as [row Erow].
  unfold Grammar.add_edge, Dict.index. rewrite Erow. simpl.
  eexists. split; [reflexivity|]. split.
  - apply keys_set_existing. apply (in_get_states tr v). eauto.
  - intros v' row' lbl ts Hrow Hlbl. apply In_set_pair in Hrow.
    destruct Hrow as [[-> ->]|Hrow].
    + apply In_set_pair in Hlbl. destruct Hlbl as [[-> _]|Hlbl]; [exact Ht|].
      apply (Hl v row lbl ts); auto. now apply get_In.
    + exact (Hl v' row' lbl ts Hrow Hlbl).
Qed.

Lemma conv_fold (variables terminals : list string) (gt : Grammar.GrammarType) :
  forall prods tr f e,
  (forall p, In p prods -> GrammarChecks.checked variables terminals gt p) ->
  Dict.keys tr = variables -> GrammarChecks.labels_in terminals tr ->
  (e = None \/ e = Some (GrammarChecks.extra_final_name gt)) ->
  exists tr' f' e',
    fold_result Grammar.conv_production prods (tr, f, e) = Ok (tr', f', e') /\
    Dict.keys tr' = variables /\ GrammarChecks.labels_in terminals tr' /\
    (forall v, In v f' <->
       In v f \/
       In v (map Grammar.left_side (filter Grammar.is_epsilon_production prods)) \/
       (v = GrammarChecks.extra_final_name gt /\
        existsb (fun p => match Grammar.terminal p, Grammar.right_side p with
                          | Some _, None => true
                          | _, _ => false
                          end) prods = true)).
Proof.
  induction prods as [|p prods IH]; intros tr f e Hp Hk Hl He.
  - exists tr, f, e. simpl. split; [reflexivity|]. split; [exact Hk|]. split; [exact Hl|].
    intros v. intuition discriminate.
  - destruct (Hp p (or_introl eq_refl)) as [Hleft [Htype [Hterm Hright]]].
    assert (Hp' : forall p', In p' prods -> GrammarChecks.checked variables terminals gt p')
      by (intros p' H; apply Hp; now right).
    cbn [fold_result].
    destruct p as [l [t|] [r|] [|]]; cbn in Hleft, Htype, Hterm, Hright |- *; subst gt.
    + destruct (add_edge_ok terminals tr l t r ltac:(now rewrite Hk) Hl (Hterm t eq_refl))
        as [tr1 [E1 [Hk1 Hl1]]].
      rewrite E1. cbn [bind].
      destruct (IH tr1 f e Hp' ltac:(congruence) Hl1 He) as [tr' [f' [e' [E [Hk' [Hl' Hf']]]]]].
      exists tr', f', e'. split; [exact E|]. split; [exact Hk'|]. split; [exact Hl'|].
      intros v. rewrite Hf'. simpl. tauto.
    + destruct (add_edge_ok terminals tr r t l ltac:(rewrite Hk; now apply Hright) Hl (Hterm t eq_refl))
        as [tr1 [E1 [Hk1 Hl1]]].
      rewrite E1. cbn [bind].
      destruct (IH tr1 f e Hp' ltac:(congruence) Hl1 He) as [tr' [f' [e' [E [Hk' [Hl' Hf']]]]]].
      exists tr', f', e'. split; [exact E|]. split; [exact Hk'|]. split; [exact Hl'|].
      intros v. rewrite Hf'. simpl. tauto.
    + assert (Hx : match e with Some x => x | None => "[Final]" end = "[Final]")
        by (destruct He as [->| ->]; reflexivity).
      rewrite Hx.
      destruct (add_edge_ok terminals tr l t "[Final]" ltac:(now rewrite Hk) Hl (Hterm t eq_refl))
        as [tr1 [E1 [Hk1 Hl1]]].
      rewrite E1. cbn [bind].
      destruct (IH tr1 (set_add "[Final]" f) (Some "[Final]") Hp' ltac:(congruence) Hl1
                  ltac:(right; reflexivity)) as [tr' [f' [e' [E [Hk' [Hl' Hf']]]]]].
      exists tr', f', e'. split; [exact E|]. split; [exact Hk'|]. split; [exact Hl'|].
      intros v. rewrite Hf', In_set_add. simpl. intuition.
    + assert (Hx : match e with Some x => x | None => "[FINAL]" end = "[FINAL]")
        by (destruct He as [->| ->]; reflexivity).
      rewrite Hx.
      destruct (add_edge_ok terminals tr l t "[FINAL]" ltac:(now rewrite Hk) Hl (Hterm t eq_refl))
        as [tr1 [E1 [Hk1 Hl1]]].
      rewrite E1. cbn [bind].
      destruct (IH tr1 (set_add "[FINAL]" f) (Some "[FINAL]") Hp' ltac:(congruence) Hl1
                  ltac:(right; reflexivity)) as [tr' [f' [e' [E [Hk' [Hl' Hf']]]]]].
      exists tr', f', e'. split; [exact E|]. split; [exact Hk'|]. split; [exact Hl'|].
      intros v. rewrite Hf', In_set_add. simpl. intuition.
    + destruct (IH tr f e Hp' Hk Hl He) as [tr' [f' [e' [E [Hk' [Hl' Hf']]]]]].
      exists tr', f', e'. split; [exact E|]. split; [exact Hk'|]. split; [exact Hl'|].
      intros v. rewrite Hf'. simpl. tauto.
    + destruct (IH tr f e Hp' Hk Hl He) as [tr' [f' [e' [E [Hk' [Hl' Hf']]]]]].
      exists tr', f', e'. split; [exact E|]. split; [exact Hk'|]. split; [exact Hl'|].
      intros v. rewrite Hf'. simpl. tauto.
    + destruct (IH tr (set_add l f) e Hp' Hk Hl He) as [tr' [f' [e' [E [Hk' [Hl' Hf']]]]]].
      exists tr', f', e'. split; [exact E|]. split; [exact Hk'|]. split; [exact Hl'|].
      intros v. rewrite Hf', In_set_add. simpl. intuition.
    + destruct (IH tr (set_add l f) e Hp' Hk Hl He) as [tr' [f' [e' [E [Hk' [Hl' Hf']]]]]].
      exists tr', f', e'. split; [exact E|]. split; [exact Hk'|]. split; [exact Hl'|].
      intros v. rewrite Hf', In_set_add. simpl. intuition.
Qed.

Lemma GrammarType_eqb_true (x y : Grammar.GrammarType) :
  GrammarChecks.GrammarType_eqb x y = true -> x = y.
Proof. destruct x, y; simpl; congruence. Qed.

Lemma init_checked (vars terms : list string) (prods : list Grammar.RegularProduction)
  (s : option string) (gt : Grammar.GrammarType) (g : Grammar.RegularGrammar) :
  GrammarChecks.RegularGrammar_init vars terms prods s gt = Some g ->
  exists sv, s = Some sv /\ g = Grammar.mkGrammar vars terms prods sv gt /\ In sv vars /\
    intersects vars terms = false /\
    (forall p, In p prods -> GrammarChecks.checked vars terms gt p).
Proof.
  unfold GrammarChecks.RegularGrammar_init.
  destruct s as [sv|]; [|discriminate].
  destruct (mem sv vars) eqn:Em; simpl; [|discriminate].
  destruct (intersects vars terms) eqn:Ei; [discriminate|].
  destruct (forallb _ prods) eqn:Ef; [|discriminate].
  intros H. injection H as <-. exists sv.
  split; [reflexivity|]. split; [reflexivity|]. split; [now apply mem_In|].
  split; [reflexivity|].
  intros p Hp. rewrite forallb_forall in Ef. specialize (Ef p Hp).
  apply andb_prop in Ef as [Ef Hr]. apply andb_prop in Ef as [Ef Ht].
  apply andb_prop in Ef as [Hl Hg].
  split; [now apply mem_In|]. split; [now apply GrammarType_eqb_true|]. split.
  - intros t Et. rewrite Et in Ht. now apply mem_In.
  - intros r Er. rewrite Er in Hr. now apply mem_In.
Qed.

Lemma nullable_fold (prods : list Grammar.RegularProduction) : forall acc v,
  In v (fold_left (fun nullable prod =>
          if Grammar.is_epsilon_production prod then set_add (Grammar.left_side prod) nullable
          else nullable) prods acc) <->
  In v acc \/ In v (map Grammar.left_side (filter Grammar.is_epsilon_production prods)).
Proof.
  induction prods as [|p prods IH]; intros acc v; simpl; [tauto|].
  rewrite IH. destruct (Grammar.is_epsilon_production p); simpl; rewrite ?In_set_add;
    intuition (subst; auto).
Qed.

Lemma nullable_fold_nodup (prods : list Grammar.RegularProduction) : forall acc,
  NoDup acc ->
  NoDup (fold_left (fun nullable prod =>
          if Grammar.is_epsilon_production prod then set_add (Grammar.left_side prod) nullable
          else nullable) prods acc).
Proof.
  induction prods as [|p prods IH]; intros acc Hacc; simpl; [exact Hacc|].
  apply IH. destruct (Grammar.is_epsilon_production p); [|exact Hacc].
  unfold set_add. destruct (mem (Grammar.left_side p) acc) eqn:E; [exact Hacc|].
  apply NoDup_app; [exact Hacc|constructor; [intros []|constructor]|].
  intros x Hx [<-|[]]. apply (proj2 (mem_In _ _)) in Hx. congruence.
Qed.

Lemma in_nullable (g : Grammar.RegularGrammar) (v : string) :
  In v (GrammarChecks.get_nullable_variables g) <->
  In v (map Grammar.left_side (filter Grammar.is_epsilon_production (Grammar.productions g))).
Proof. unfold GrammarChecks.get_nullable_variables. rewrite nullable_fold. simpl. tauto. Qed.

Lemma existsb_terminal_only (prods : list Grammar.RegularProduction) :
  existsb (fun p => match Grammar.terminal p, Grammar.right_side p with
                    | Some _, None => true
                    | _, _ => false
                    end) prods = true <->
  exists p, In p prods /\ Grammar.terminal p <> None /\ Grammar.right_side p = None.
Proof.
  rewrite existsb_exists. split.
  - intros [p [Hp H]]. exists p. split; [exact Hp|].
    destruct (Grammar.terminal p), (Grammar.right_side p); split; congruence.
  - intros [p [Hp [Ht Hr]]]. exists p. split; [exact Hp|].
    rewrite Hr. destruct (Grammar.terminal p); congruence.
Qed.

Lemma initial_transitions_keys (vars : list string) :
  Dict.keys (map (fun v => (v, @nil (string * list string))) vars) = vars.
Proof. unfold Dict.keys. rewrite map_map. simpl. apply map_id. Qed.

Lemma initial_transitions_labels (terms vars : list string) :
  GrammarChecks.labels_in terms (map (fun v => (v, @nil (string * list string))) vars).
Proof.
  intros v row label ts Hrow Hl. apply in_map_iff in Hrow.
  destruct Hrow as [x [Hx _]]. injection Hx as _ <-. destruct Hl.
Qed.

Lemma to_finite_automaton_shape (vars terms : list string)
  (prods : list Grammar.RegularProduction) (s : option string) (gt : Grammar.GrammarType)
  (g : Grammar.RegularGrammar) :
  GrammarChecks.RegularGrammar_init vars terms prods s gt = Some g ->
  exists a, Grammar.to_finite_automaton g = Ok a /\
    NFA.alphabet a = terms /\ s = Some (NFA.start a) /\
    (forall q row, In (q, row) (NFA.delta a) ->
       In q vars /\ row <> [] /\ forall label ts, In (label, ts) row -> In label terms) /\
    (forall v, In v (NFA.final_states a) <->
       In v (GrammarChecks.get_nullable_variables g) \/
       (v = GrammarChecks.extra_final_name gt /\
        exists p, In p prods /\ Grammar.terminal p <> None /\ Grammar.right_side p = None)).
Proof.
  intros H. destruct (init_checked _ _ _ _ _ _ H) as [sv [-> [-> [_ [_ Hc]]]]].
  destruct (conv_fold vars terms gt prods (map (fun v => (v, [])) vars) [] None Hc
              (initial_transitions_keys vars) (initial_transitions_labels terms vars)
              (or_introl eq_refl)) as [tr' [f' [e' [E [Hk [Hl Hf]]]]]].
  unfold Grammar.to_finite_automaton. simpl Grammar.productions. simpl Grammar.variables.
  rewrite E. cbn [bind]. eexists. split; [reflexivity|]. simpl.
  split; [reflexivity|]. split; [reflexivity|]. split.
  - intros q row Hrow. apply filter_In in Hrow. destruct Hrow as [Hrow Hne].
    split; [|split].
    + rewrite <- Hk. unfold Dict.keys. apply in_map_iff. now exists (q, row).
    + destruct row; [discriminate|]. congruence.
    + intros label ts. exact (Hl q row label ts Hrow).
  - intros v. rewrite Hf, in_nullable, existsb_terminal_only. simpl. tauto.
Qed.

Lemma closure_single_no_eps (a : NFA.NFA) (q : string) :
  (forall q' row ts, In (q', row) (NFA.delta a) -> ~ In ("", ts) row) ->
  NFA.epsilon_closure a [q] = [q].
Proof.
  intros H. unfold NFA.epsilon_closure. simpl.
  destruct (Dict.get q (NFA.delta a)) as [trans|] eqn:Eq; [|reflexivity].
  destruct (Dict.get "" trans) as [ts|] eqn:Ee; [|reflexivity].
  exfalso. apply (H q trans ts); now apply get_In.
Qed.

(** [RegularGrammar.to_finite_automaton] on a grammar that
    [RegularGrammar.__init__] accepted never raises: the automaton has
    the terminals as alphabet and the start variable as start state; each
    row it keeps is a non-empty row of a variable whose labels are
    terminals; its final states are the nullable variables, plus the
    synthetic final state exactly when some production is [A -> a]. *)
Theorem to_finite_automaton_total (vars terms : list string)
  (prods : list Grammar.RegularProduction) (s : option string) (gt : Grammar.GrammarType)
  (g : Grammar.RegularGrammar) :
  GrammarChecks.RegularGrammar_init vars terms prods s gt = Some g ->
  exists a, Grammar.to_finite_automaton g = Ok a /\
    NFA.alphabet a = terms /\ s = Some (NFA.start a) /\
    (forall q row, In (q, row) (NFA.delta a) ->
       In q vars /\ row <> [] /\ forall label ts, In (label, ts) row -> In label terms) /\
    (forall v, In v (NFA.final_states a) <->
       In v (GrammarChecks.get_nullable_variables g) \/
       (v = GrammarChecks.extra_final_name gt /\
        exists p, In p prods /\ Grammar.terminal p <> None /\ Grammar.right_side p = None)).
Proof. apply to_finite_automaton_shape. Qed.

Lemma to_finite_automaton_total_witness :
  GrammarChecks.RegularGrammar_init ["S"] ["0"; "1"] (Grammar.productions Grammar.g01)
    (Some "S") Grammar.RIGHT_LINEAR = Some Grammar.g01 /\
  exists a, Grammar.to_finite_automaton Grammar.g01 = Ok a /\ NFA.alphabet a = ["0"; "1"].
Proof.
  assert (H : GrammarChecks.RegularGrammar_init ["S"] ["0"; "1"] (Grammar.productions Grammar.g01)
                (Some "S") Grammar.RIGHT_LINEAR = Some Grammar.g01) by reflexivity.
  split; [exact H|].
  destruct (to_finite_automaton_total _ _ _ _ _ _ H) as [a [E [Ha _]]].
  exists a. split; [exact E|exact Ha].
Defined.

(** Whether the automaton of a grammar accepted by [__init__] accepts the
    empty string is [derives_epsilon], provided no terminal is the empty
    string (which [NFA] reads as an epsilon label) and the start variable
    is not the name of the synthetic final state. *)
Theorem grammar_accepts_empty (vars terms : list string)
  (prods : list Grammar.RegularProduction) (s : option string) (gt : Grammar.GrammarType)
  (g : Grammar.RegularGrammar) :
  GrammarChecks.RegularGrammar_init vars terms prods s gt = Some g ->
  ~ In "" terms ->
  Grammar.start_variable g <> GrammarChecks.extra_final_name gt ->
  Grammar.accepts g "" = Ok (GrammarChecks.derives_epsilon g).
Proof.
  intros H Heps Hstart.
  destruct (to_finite_automaton_shape _ _ _ _ _ _ H) as [a [E [_ [Hs [Hrows Hfin]]]]].
  destruct (init_checked _ _ _ _ _ _ H) as [sv [Esv [Eg _]]].
  unfold Grammar.accepts. rewrite E. cbn [bind]. unfold NFA.accepts.
  rewrite closure_single_no_eps.
  - simpl. f_equal. unfold GrammarChecks.derives_epsilon.
    assert (Est : Grammar.start_variable g = NFA.start a) by (subst g; simpl; congruence).
    rewrite Est in Hstart |- *. rewrite orb_false_r.
    apply Bool.eq_iff_eq_true. rewrite !mem_In, Hfin.
    split; [intros [Hn|[Hx _]]; [exact Hn|contradiction]|now left].
  - intros q' row ts Hrow Hl. apply Heps.
    destruct (Hrows q' row Hrow) as [_ [_ Hlab]]. exact (Hlab "" ts Hl).
Qed.

Lemma grammar_accepts_empty_witness :
  Grammar.accepts Grammar.g01 "" = Ok (GrammarChecks.derives_epsilon Grammar.g01).
Proof.
  apply (grammar_accepts_empty ["S"] ["0"; "1"] (Grammar.productions Grammar.g01)
           (Some "S") Grammar.RIGHT_LINEAR).
  - reflexivity.
  - simpl. intros [H|[H|[]]]; discriminate.
  - simpl. discriminate.
Defined.

(** [get_nullable_variables] holds, once each, exactly the left sides of
    the epsilon productions; so [derives_epsilon] holds exactly when one
    of [get_produtions_for_variable(start_variable)] is an epsilon
    production. *)
Theorem nullable_variables_spec (g : Grammar.RegularGrammar) :
  NoDup (GrammarChecks.get_nullable_variables g) /\
  (forall v, In v (GrammarChecks.get_nullable_variables g) <->
     exists p, In p (Grammar.productions g) /\ Grammar.is_epsilon_production p = true /\
               Grammar.left_side p = v) /\
  (GrammarChecks.derives_epsilon g = true <->
     exists p, In p (GrammarChecks.get_produtions_for_variable g (Grammar.start_variable g)) /\
               Grammar.is_epsilon_production p = true).
Proof.
  assert (Hv : forall v, In v (GrammarChecks.get_nullable_variables g) <->
     exists p, In p (Grammar.productions g) /\ Grammar.is_epsilon_production p = true /\
               Grammar.left_side p = v).
  { intros v. rewrite in_nullable, in_map_iff. split.
    - intros [p [<- Hp]]. apply filter_In in Hp. exists p. tauto.
    - intros [p [Hp [He <-]]]. exists p. split; [reflexivity|]. now apply filter_In. }
  split; [apply nullable_fold_nodup; constructor|]. split; [exact Hv|].
  unfold GrammarChecks.derives_epsilon, GrammarChecks.get_produtions_for_variable.
  rewrite mem_In, Hv. split.
  - intros [p [Hp [He Hl]]]. exists p. split; [|exact He].
    apply filter_In. split; [exact Hp|]. now apply String.eqb_eq.
  - intros [p [Hp He]]. apply filter_In in Hp. destruct Hp as [Hp Hl].
    exists p. split; [exact Hp|]. split; [exact He|]. now apply String.eqb_eq.
Qed.

(** On a grammar accepted by [__init__] whose productions all passed
    [RegularProduction.__post_init__], [is_valid_regular_grammar] never
    returns [False]. *)
Theorem is_valid_after_init (vars terms : list string)
  (prods : list Grammar.RegularProduction) (s : option string) (gt : Grammar.GrammarType)
  (g : Grammar.RegularGrammar) :
  GrammarChecks.RegularGrammar_init vars terms prods s gt = Some g ->
  (forall p, In p prods -> GrammarChecks.post_init p = Some p) ->
  GrammarChecks.is_valid_regular_grammar g = true.
Proof.
  intros H Hpost. destruct (init_checked _ _ _ _ _ _ H) as [sv [_ [-> [_ [_ Hc]]]]].
  unfold GrammarChecks.is_valid_regular_grammar. simpl. apply forallb_forall.
  intros p Hp. destruct (Hc p Hp) as [_ [Hg _]]. specialize (Hpost p Hp).
  rewrite Hg. apply andb_true_intro. split; [destruct gt; reflexivity|].
  unfold GrammarChecks.post_init in Hpost.
  destruct (Grammar.grammar_type p), (Grammar.terminal p), (Grammar.right_side p);
    first [reflexivity | discriminate].
Qed.

Lemma is_valid_after_init_witness :
  GrammarChecks.is_valid_regular_grammar Grammar.g01 = true.
Proof.
  apply (is_valid_after_init ["S"] ["0"; "1"] (Grammar.productions Grammar.g01)
           (Some "S") Grammar.RIGHT_LINEAR).
  - reflexivity.
  - simpl. intros p [<-|[<-|[]]]; reflexivity.
Defined.

(** [make_regular_grammar] with no variables always raises the
    [ValueError] of [__init__], whatever start variable it is given. *)
Theorem make_regular_grammar_no_variables (vs : option (list string))
  (ts : option (list string)) (ps : option (list Grammar.RegularProduction))
  (sv : option string) (gt : Grammar.GrammarType) :
  (vs = None \/ vs = Some []) ->
  GrammarChecks.make_regular_grammar vs ts ps sv gt = None.
Proof.
  intros Hvs. unfold GrammarChecks.make_regular_grammar.
  assert (E : match vs with Some v => v | None => [] end = []) by (destruct Hvs as [-> | ->]; reflexivity).
  rewrite E. destruct sv; reflexivity.
Qed.

Lemma make_regular_grammar_no_variables_witness :
  GrammarChecks.make_regular_grammar None (Some ["a"]) None (Some "S") Grammar.RIGHT_LINEAR = None.
Proof. apply make_regular_grammar_no_variables. now left. Defined.

(** ** Totality of [to_regex] *)

Lemma mget_ok_row (R : ToRegex.matrix) (x y : string) (v : RE.regex) :
  ToRegex.mget R x y = Ok v -> Dict.get x R <> None.
Proof.
  unfold ToRegex.mget, Dict.index. destruct (Dict.get x R); simpl; congruence.
Qed.

Lemma defined_mset (ss : list string) (R R' : ToRegex.matrix) (i j : string) (v : RE.regex) :
  matrix_defined ss R -> ToRegex.mset R i j v = Ok R' -> matrix_defined ss R'.
Proof.
  intros Hd E x y Hx Hy. rewrite (mget_mset _ _ _ _ _ _ _ E).
  destruct (String.eqb x i && String.eqb y j); eauto.
Qed.

Lemma defined_mset_ok (ss : list string) (R : ToRegex.matrix) (i j : string) :
  matrix_defined ss R -> In i ss -> forall v, exists R', ToRegex.mset R i j v = Ok R'.
Proof.
  intros Hd Hi v. destruct (Hd i i Hi Hi) as [w Ew].
  exact (mset_some R i j v (mget_ok_row R i i w Ew)).
Qed.

Lemma get_map_const {V : Type} (v : V) (l : list string) (x : string) :
  In x l -> Dict.get x (map (fun s => (s, v)) l) = Some v.
Proof.
  induction l as [|s l IH]; simpl; [tauto|]. intros Hx.
  destruct (String.eqb x s) eqn:E; [reflexivity|].
  destruct Hx as [->|Hx]; [now rewrite String.eqb_refl in E|auto].
Qed.

Lemma init_matrix_defined (states : list string) :
  matrix_defined states (ToRegex.init_matrix states).
Proof.
  intros x y Hx Hy. exists RE.EmptySet. unfold ToRegex.mget, ToRegex.init_matrix, Dict.index.
  rewrite (get_map_const _ states x Hx). simpl. now rewrite (get_map_const _ states y Hy).
Qed.

Lemma add_symbol_defined (ss : list string) (re : RE.regex) (from to : string)
  (R : ToRegex.matrix) (n : nat) :
  matrix_defined ss R -> In from ss -> In to ss ->
  exists R' n', ToRegex.add_symbol re from (R, n) to = Ok (R', n') /\ matrix_defined ss R'.
Proof.
  intros Hd Hf Ht. destruct (Hd from to Hf Ht) as [cur Ec].
  unfold ToRegex.add_symbol. rewrite Ec. cbn [bind].
  destruct (RE.is_EmptySet cur).
  - destruct (defined_mset_ok ss R from to Hd Hf re) as [R' E'].
    rewrite E'. cbn [bind]. exists R', n. split; [reflexivity|]. exact (defined_mset _ _ _ _ _ _ Hd E').
  - destruct (defined_mset_ok ss R from to Hd Hf (RE.make_union n cur re)) as [R' E'].
    rewrite E'. cbn [bind]. exists R', (S n). split; [reflexivity|].
    exact (defined_mset _ _ _ _ _ _ Hd E').
Qed.

Lemma add_transition_defined (ss : list string) (from : string) (e : string * ToRegex.Target)
  (R : ToRegex.matrix) (n : nat) :
  matrix_defined ss R -> In from ss -> (forall y, In y (target_states (snd e)) -> In y ss) ->
  exists R' n', ToRegex.add_transition from (R, n) e = Ok (R', n') /\ matrix_defined ss R'.
Proof.
  destruct e as [sym [to|tos]]; unfold ToRegex.add_transition; cbn [snd target_states];
    intros Hd Hf Ht.
  - apply add_symbol_defined; auto. apply Ht. now left.
  - revert R n Hd. induction tos as [|to tos IH]; intros R n Hd; cbn [fold_result].
    + exists R, n. auto.
    + destruct (add_symbol_defined ss (if String.eqb sym "" then RE.EmptyString else RE.Symbol sym)
                  from to R n Hd Hf (Ht to (or_introl eq_refl))) as [R1 [n1 [E1 Hd1]]].
      rewrite E1. cbn [bind]. apply IH; auto. intros y Hy. apply Ht. now right.
Qed.

Lemma add_edges_fold_defined (ss : list string) :
  forall (rows : list (string * list (string * ToRegex.Target))) (R : ToRegex.matrix) (n : nat),
  (forall q tr, In (q, tr) rows -> In q ss /\
     forall sym t y, In (sym, t) tr -> In y (target_states t) -> In y ss) ->
  matrix_defined ss R ->
  exists R' n',
    fold_result (fun st '(from_state, transitions) =>
                   fold_result (ToRegex.add_transition from_state) transitions st) rows (R, n)
    = Ok (R', n') /\ matrix_defined ss R'.
Proof.
  induction rows as [|[q tr] rows IH]; intros R n Hrows Hd; simpl.
  - exists R, n. auto.
  - destruct (Hrows q tr (or_introl eq_refl)) as [Hq Htr].
    assert (Hinner : forall tr', (forall e, In e tr' -> In e tr) -> forall R n,
              matrix_defined ss R ->
              exists R' n', fold_result (ToRegex.add_transition q) tr' (R, n) = Ok (R', n') /\
                            matrix_defined ss R').
    { induction tr' as [|e tr' IHt]; intros Hsub R0 n0 Hd0; simpl.
      - exists R0, n0. auto.
      - destruct e as [sym t].
        destruct (add_transition_defined ss q (sym, t) R0 n0 Hd0 Hq) as [R1 [n1 [E1 Hd1]]].
        { intros y Hy. exact (Htr sym t y (Hsub _ (or_introl eq_refl)) Hy). }
        rewrite E1. cbn [bind]. apply IHt; auto. intros e' He'. apply Hsub. now right. }
    destruct (Hinner tr (fun e H => H) R n Hd) as [R1 [n1 [E1 Hd1]]].
    rewrite E1. cbn [bind]. apply IH; auto. intros q' tr' H. apply Hrows. now right.
Qed.

Lemma add_edges_defined (a : ToRegex.Convertible) :
  (forall q tr, In (q, tr) (ToRegex.delta a) ->
     forall sym t y, In (sym, t) tr -> In y (target_states t) -> In y (get_states (ToRegex.delta a))) ->
  exists R n, ToRegex.add_edges a (ToRegex.init_matrix (get_states (ToRegex.delta a)), 0) = Ok (R, n) /\
    matrix_defined (get_states (ToRegex.delta a)) R.
Proof.
  intros Ht. unfold ToRegex.add_edges. apply add_edges_fold_defined.
  - intros q tr Hq. split.
    + unfold get_states, Dict.keys. apply in_map_iff. now exists (q, tr).
    + exact (Ht q tr Hq).
  - apply init_matrix_defined.
Qed.

Lemma NoDup_set_add (x : string) (l : list string) : NoDup l -> NoDup (set_add x l).
Proof.
  intros Hl. unfold set_add. destruct (mem x l) eqn:E; [exact Hl|].
  apply NoDup_app; [exact Hl|constructor; [intros []|constructor]|].
  intros y Hy [<-|[]]. apply (proj2 (mem_In _ _)) in Hy. congruence.
Qed.

Lemma single_final_defined (a : ToRegex.Convertible) (ss : list string) (R : ToRegex.matrix) :
  matrix_defined ss R -> NoDup ss ->
  ToRegex.final_states a <> [] -> (forall f, In f (ToRegex.final_states a) -> In f ss) ->
  exists S' R' f, ToRegex.single_final a ss R = Ok (S', R', f) /\
    matrix_defined S' R' /\ In f S' /\ (forall x, In x ss -> In x S') /\ NoDup S'.
Proof.
  intros Hd Hnd Hne Hfin. unfold ToRegex.single_final.
  destruct (Nat.ltb 1 (length (ToRegex.final_states a))) eqn:Elt.
  - cbv zeta.
    set (R0 := Dict.set "F_new" [] R).
    set (S' := set_add "F_new" ss).
    assert (HF0 : Dict.get "F_new" R0 <> None) by (unfold R0; rewrite get_set_same; discriminate).
    assert (Hrows0 : forall s, In s S' -> Dict.get s R0 <> None).
    { intros s Hs. unfold S' in Hs. apply In_set_add in Hs.
      destruct (String.eqb s "F_new") eqn:Es.
      - apply String.eqb_eq in Es. now subst.
      - apply String.eqb_neq in Es. unfold R0. rewrite get_set_other by exact Es.
        destruct Hs as [Hs|Hs]; [contradiction|].
        destruct (Hd s s Hs Hs) as [w Ew]. exact (mget_ok_row R s s w Ew). }
    destruct (fold_reset_column "F_new" S' R0 HF0 Hrows0) as [R1 [E1 [Hr1 Hg1]]].
    destruct (fold_final_edges "F_new" (ToRegex.final_states a) R1) as [R2 [E2 Hg2]].
    { intros f Hf. apply Hr1, Hrows0. unfold S'. apply In_set_add. right. auto. }
    rewrite E1. cbn [bind]. rewrite E2. cbn [bind].
    exists S', R2, "F_new". split; [reflexivity|]. split; [|split; [|split]].
    + intros x y Hx Hy. rewrite Hg2.
      destruct (String.eqb y "F_new" && mem x (ToRegex.final_states a)); [eauto|].
      rewrite Hg1. apply mem_In in Hx as Hmx. apply mem_In in Hy as Hmy. rewrite Hmx, Hmy.
      destruct (String.eqb x "F_new") eqn:Ex; simpl; [eauto|].
      destruct (String.eqb y "F_new") eqn:Ey; simpl; [eauto|].
      apply String.eqb_neq in Ex, Ey. unfold R0. rewrite mget_set_other by exact Ex.
      unfold S' in Hx, Hy. apply In_set_add in Hx, Hy.
      destruct Hx as [Hx|Hx]; [contradiction|]. destruct Hy as [Hy|Hy]; [contradiction|].
      exact (Hd x y Hx Hy).
    + unfold S'. apply In_set_add. now left.
    + intros x Hx. unfold S'. apply In_set_add. now right.
    + now apply NoDup_set_add.
  - destruct (ToRegex.final_states a) as [|f fs] eqn:Ef; [contradiction|].
    exists ss, R, f. split; [reflexivity|]. split; [exact Hd|]. split; [apply Hfin; now left|].
    split; [auto|exact Hnd].
Qed.

Lemma elim_pairs_defined (S0 : list string) (k : string) :
  forall (pairs : list (string * string)) (R : ToRegex.matrix) (n : nat),
  matrix_defined S0 R -> In k S0 ->
  (forall i j, In (i, j) pairs -> In i S0 /\ In j S0) ->
  exists R' n', fold_result (ToRegex.elim_pair k) pairs (R, n) = Ok (R', n') /\
    matrix_defined S0 R'.
Proof.
  induction pairs as [|[i j] pairs IH]; intros R n Hd Hk Hp; simpl.
  - exists R, n. auto.
  - destruct (Hp i j (or_introl eq_refl)) as [Hi Hj].
    destruct (Hd i j Hi Hj) as [v1 E1]. destruct (Hd i k Hi Hk) as [v2 E2].
    destruct (Hd k k Hk Hk) as [v3 E3]. destruct (Hd k j Hk Hj) as [v4 E4].
    unfold ToRegex.elim_pair at 1. rewrite E1. cbn [bind]. rewrite E2. cbn [bind].
    rewrite E3. cbn [bind]. rewrite E4. cbn [bind].
    match goal with |- context [ToRegex.mset R i j ?v] =>
      destruct (defined_mset_ok S0 R i j Hd Hi v) as [R1 E5]; rewrite E5 end.
    cbn [bind]. apply IH; [exact (defined_mset _ _ _ _ _ _ Hd E5)|exact Hk|].
    intros i' j' H. apply Hp. now right.
Qed.

Lemma remove_state_ok (k : string) :
  forall states, NoDup states -> In k states ->
  exists states', ToRegex.remove_state k states = Ok states' /\ NoDup states' /\
    (forall x, In x states' <-> In x states /\ x <> k).
Proof.
  induction states as [|s states IH]; intros Hnd Hk; [destruct Hk|].
  inversion Hnd as [|? ? Hs Hnd']; subst. simpl.
  destruct (String.eqb s k) eqn:E.
  - apply String.eqb_eq in E. subst s. exists states. split; [reflexivity|]. split; [exact Hnd'|].
    intros x. split.
    + intros Hx. split; [now right|]. intros ->. contradiction.
    + intros [[->|Hx] Hne]; [contradiction|exact Hx].
  - apply String.eqb_neq in E. destruct Hk as [Hk|Hk]; [contradiction|].
    destruct (IH Hnd' Hk) as [st' [E' [Hnd'' Hin]]]. rewrite E'. cbn [bind].
    exists (s :: st'). split; [reflexivity|]. split.
    + constructor; [|exact Hnd'']. rewrite Hin. tauto.
    + intros x. simpl. rewrite Hin. split.
      * intros [<-|[Hx Hne]]; [split; [now left|auto]|auto].
      * intros [[<-|Hx] Hne]; auto.
Qed.

Lemma eliminate_defined (S0 : list string) :
  forall ks states R n,
  matrix_defined S0 R -> (forall x, In x states -> In x S0) -> NoDup states ->
  NoDup ks -> (forall x, In x ks -> In x states) ->
  exists R' n' states', ToRegex.eliminate states ks (R, n) = Ok ((R', n'), states') /\
    matrix_defined S0 R'.
Proof.
  induction ks as [|k ks IH]; intros states R n Hd Hsub Hnd Hndk Hks; simpl.
  - exists R, n, states. auto.
  - assert (Hk : In k states) by (apply Hks; now left).
    destruct (elim_pairs_defined S0 k
                (list_prod (ToRegex.remaining states k) (ToRegex.remaining states k)) R n Hd
                (Hsub k Hk)) as [R1 [n1 [E1 Hd1]]].
    { intros i j Hij. apply in_prod_iff in Hij. destruct Hij as [Hi Hj].
      unfold ToRegex.remaining in Hi, Hj. apply filter_In in Hi, Hj.
      split; apply Hsub; tauto. }
    unfold ToRegex.elim_state. rewrite E1. cbn [bind].
    destruct (remove_state_ok k states Hnd Hk) as [st' [E2 [Hnd2 Hin2]]].
    rewrite E2. cbn [bind].
    inversion Hndk as [|? ? Hkks Hndk']; subst.
    apply IH; auto.
    + intros x Hx. apply Hin2 in Hx. apply Hsub. tauto.
    + intros x Hx. apply Hin2. split; [apply Hks; now right|]. intros ->. contradiction.
Qed.

Lemma to_regex_defined (a : ToRegex.Convertible) :
  NoDup (get_states (ToRegex.delta a)) ->
  (forall q tr, In (q, tr) (ToRegex.delta a) ->
     forall sym t y, In (sym, t) tr -> In y (target_states t) -> In y (get_states (ToRegex.delta a))) ->
  In (ToRegex.start a) (get_states (ToRegex.delta a)) ->
  ToRegex.final_states a <> [] ->
  (forall f, In f (ToRegex.final_states a) -> In f (get_states (ToRegex.delta a))) ->
  exists r, ToRegex.to_regex a = Ok r.
Proof.
  intros Hnd Ht Hs Hne Hfin.
  destruct (add_edges_defined a Ht) as [R [n [E1 Hd1]]].
  unfold ToRegex.to_regex. rewrite E1. cbn [bind].
  destruct (single_final_defined a _ R Hd1 Hnd Hne Hfin) as [S' [R' [f [E2 [Hd2 [Hf [Hsub Hnd']]]]]]].
  rewrite E2. cbn [bind].
  destruct (eliminate_defined S' (filter (fun state => negb (String.eqb state (ToRegex.start a)
                                   || String.eqb state f)) S') S' R' n Hd2 (fun x H => H) Hnd')
    as [R'' [n'' [st [E3 Hd3]]]].
  { now apply NoDup_filter. }
  { intros x Hx. apply filter_In in Hx. tauto. }
  rewrite E3. cbn [bind].
  destruct (Hd3 _ _ (Hsub _ Hs) (Hsub _ Hs)) as [v1 E4]. rewrite E4. cbn [bind].
  destruct (Hd3 _ _ (Hsub _ Hs) Hf) as [v2 E5]. rewrite E5. cbn [bind].
  destruct (RE.is_EmptySet v1); eauto.
Qed.

(** [to_regex] never raises on an automaton whose transition map is
    closed (every target state is a key), whose start state is a key, and
    which has at least one final state, all of them keys: every read
    [R[i][j]] and every write of the conversion, the elimination loop and
    [states.remove(k)] included, succeeds. *)
Theorem to_regex_total (a : ToRegex.Convertible) :
  NoDup (get_states (ToRegex.delta a)) ->
  (forall q tr, In (q, tr) (ToRegex.delta a) ->
     forall sym t y, In (sym, t) tr -> In y (target_states t) -> In y (get_states (ToRegex.delta a))) ->
  In (ToRegex.start a) (get_states (ToRegex.delta a)) ->
  ToRegex.final_states a <> [] ->
  (forall f, In f (ToRegex.final_states a) -> In f (get_states (ToRegex.delta a))) ->
  exists r, ToRegex.to_regex a = Ok r.
Proof. apply to_regex_defined. Qed.

Lemma to_regex_total_witness :
  exists r, ToRegex.to_regex (ToRegex.of_dfa DFA.default_dfa) = Ok r.
Proof.
  apply to_regex_total.
  - vm_compute. repeat constructor; simpl; intuition discriminate.
  - intros q tr Hq sym t y Ht Hy. vm_compute in Hq.
    repeat destruct Hq as [Hq|Hq]; try contradiction; injection Hq as <- <-;
      repeat destruct Ht as [Ht|Ht]; try contradiction; injection Ht as <- <-;
      destruct Hy as [<-|[]]; apply mem_In; vm_compute; reflexivity.
  - apply mem_In. vm_compute. reflexivity.
  - vm_compute. discriminate.
  - intros f Hf. vm_compute in Hf. destruct Hf as [<-|[]]. apply mem_In. vm_compute. reflexivity.
Defined.

(** On an automaton with no final state whose transition map is closed,
    [to_regex] fills the matrix and then raises [StopIteration] at
    [next(iter(self.final_states))]. *)
Theorem to_regex_no_final_state (a : ToRegex.Convertible) :
  (forall q tr, In (q, tr) (ToRegex.delta a) ->
     forall sym t y, In (sym, t) tr -> In y (target_states t) -> In y (get_states (ToRegex.delta a))) ->
  ToRegex.final_states a = [] ->
  ToRegex.to_regex a = Err StopIteration.
Proof.
  intros Ht Hf. destruct (add_edges_defined a Ht) as [R [n [E1 _]]].
  unfold ToRegex.to_regex. rewrite E1. cbn [bind].
  unfold ToRegex.single_final. rewrite Hf. reflexivity.
Qed.

Lemma to_regex_no_final_state_witness :
  ToRegex.to_regex (ToRegex.mkConvertible (ToRegex.delta (ToRegex.of_dfa DFA.default_dfa)) "S" [])
  = Err StopIteration.
Proof.
  apply to_regex_no_final_state; [|reflexivity].
  intros q tr Hq sym t y Ht Hy. vm_compute in Hq.
  repeat destruct Hq as [Hq|Hq]; try contradiction; injection Hq as <- <-;
    repeat destruct Ht as [Ht|Ht]; try contradiction; injection Ht as <- <-;
    destruct Hy as [<-|[]]; apply mem_In; vm_compute; reflexivity.
Defined.

(** ** Smart constructors and rendering *)

(** [str] of a [RegexUnion], [RegexConcat] or [RegexKleeneStar] node is
    [str] of what the smart constructor [make_union], [make_concat] or
    [make_kleene_star] returns for the same operands: the rendering
    applies exactly the simplifications the constructors apply. *)
Theorem render_matches_smart_constructors :
  (forall o o' l r, RE.regex_str (RE.RegexUnion o l r) = RE.regex_str (RE.make_union o' l r)) /\
  (forall o o' l r, RE.regex_str (RE.RegexConcat o l r) = RE.regex_str (RE.make_concat o' l r)) /\
  (forall o o' e, RE.regex_str (RE.RegexKleeneStar o e) = RE.regex_str (RE.make_kleene_star o' e)).
Proof.
  split; [|split].
  - intros o o' l r. unfold RE.make_union. cbn [RE.regex_str].
    destruct (RE.is_EmptySet l) eqn:E1; [reflexivity|].
    destruct (RE.is_EmptySet r) eqn:E2; [reflexivity|].
    destruct (RE.py_eq l r) eqn:E3; [reflexivity|].
    cbn [RE.regex_str]. now rewrite E1, E2, E3.
  - intros o o' l r. unfold RE.make_concat. cbn [RE.regex_str].
    destruct (RE.is_EmptyString l) eqn:E1; [reflexivity|].
    destruct (RE.is_EmptyString r) eqn:E2; [reflexivity|].
    destruct (RE.is_EmptySet l || RE.is_EmptySet r) eqn:E3; [reflexivity|].
    cbn [RE.regex_str]. now rewrite E1, E2, E3.
  - intros o o' e. unfold RE.make_kleene_star. destruct e; reflexivity.
Qed.


(** ** The edges of the automaton of a right-linear grammar *)

Lemma add_edge_targets (tr tr' : Grammar.transitions_t) (v t x : string) :
  Grammar.add_edge tr v t x = Ok tr' ->
  forall q sym y, In y (GrammarChecks.edge_targets tr' q sym) <->
    In y (GrammarChecks.edge_targets tr q sym) \/ (q = v /\ sym = t /\ y = x).
Proof.
  unfold Grammar.add_edge, Dict.index.
  destruct (Dict.get v tr) as [row|] eqn:Ev; cbn [bind]; [|discriminate].
  intros H. injection H as <-. intros q sym y. unfold GrammarChecks.edge_targets.
  destruct (String.eqb q v) eqn:Eq.
  - apply String.eqb_eq in Eq. subst q. rewrite get_set_same, Ev.
    destruct (String.eqb sym t) eqn:Es.
    + apply String.eqb_eq in Es. subst sym. rewrite get_set_same, In_set_add.
      destruct (Dict.get t row); intuition.
    + apply String.eqb_neq in Es. rewrite get_set_other by exact Es. intuition.
  - apply String.eqb_neq in Eq. rewrite get_set_other by exact Eq. intuition.
Qed.

Lemma production_eq_iff (l l' : string) (t t' r r' : option string) (g g' : Grammar.GrammarType) :
  Grammar.mkProduction l t r g = Grammar.mkProduction l' t' r' g' <->
  l = l' /\ t = t' /\ r = r' /\ g = g'.
Proof.
  split; [intros H; injection H; auto|]. intros [-> [-> [-> ->]]]. reflexivity.
Qed.

Lemma Some_eq_iff (a b : string) : Some a = Some b <-> a = b.
Proof. split; [congruence|now intros ->]. Qed.

Lemma None_Some_iff (a : string) : (None = Some a) <-> False.
Proof. split; [discriminate|tauto]. Qed.

Lemma Some_None_iff (a : string) : (Some a = None) <-> False.
Proof. split; [discriminate|tauto]. Qed.

Lemma conv_fold_edges (variables terminals : list string) :
  forall prods tr f e,
  (forall p, In p prods -> GrammarChecks.checked variables terminals Grammar.RIGHT_LINEAR p) ->
  Dict.keys tr = variables ->
  (e = None \/ e = Some "[Final]") ->
  exists tr' f' e',
    fold_result Grammar.conv_production prods (tr, f, e) = Ok (tr', f', e') /\
    forall q sym y, In y (GrammarChecks.edge_targets tr' q sym) <->
      In y (GrammarChecks.edge_targets tr q sym) \/
      In (Grammar.right_linear_production q sym y) prods \/
      (y = "[Final]" /\ In (Grammar.terminal_production q sym Grammar.RIGHT_LINEAR) prods).
Proof.
  induction prods as [|p prods IH]; intros tr f e Hp Hk He.
  - exists tr, f, e. split; [reflexivity|]. intros q sym y. simpl. tauto.
  - destruct (Hp p (or_introl eq_refl)) as [Hleft [Htype [Hterm Hright]]].
    assert (Hp' : forall p', In p' prods ->
                    GrammarChecks.checked variables terminals Grammar.RIGHT_LINEAR p')
      by (intros p' H; apply Hp; now right).
    cbn [fold_result].
    destruct p as [l [t|] [r|] [|]]; cbn in Hleft, Htype, Hterm, Hright |- *;
      try discriminate Htype.
    + assert (Hl : In l (Dict.keys tr)) by now rewrite Hk.
      apply (in_get_states tr l) in Hl. destruct Hl as [row Erow].
      destruct (Grammar.add_edge tr l t r) as [tr1|err] eqn:E1;
        [|unfold Grammar.add_edge, Dict.index in E1; rewrite Erow in E1; discriminate].
      cbn [bind].
      assert (Hk1 : Dict.keys tr1 = variables).
      { unfold Grammar.add_edge, Dict.index in E1. rewrite Erow in E1. injection E1 as <-.
        rewrite keys_set_existing; [exact Hk|]. apply (in_get_states tr l). eauto. }
      destruct (IH tr1 f e Hp' Hk1 He) as [tr' [f' [e' [E Hf']]]].
      exists tr', f', e'. split; [exact E|]. intros q sym y.
      rewrite Hf', (add_edge_targets _ _ _ _ _ E1).
      unfold Grammar.right_linear_production, Grammar.terminal_production. cbn [In].
      rewrite !production_eq_iff, !Some_eq_iff, ?None_Some_iff, ?Some_None_iff.
      intuition (subst; auto).
    + assert (Hx : match e with Some x => x | None => "[Final]" end = "[Final]")
        by (destruct He as [->| ->]; reflexivity).
      rewrite Hx.
      assert (Hl : In l (Dict.keys tr)) by now rewrite Hk.
      apply (in_get_states tr l) in Hl. destruct Hl as [row Erow].
      destruct (Grammar.add_edge tr l t "[Final]") as [tr1|err] eqn:E1;
        [|unfold Grammar.add_edge, Dict.index in E1; rewrite Erow in E1; discriminate].
      cbn [bind].
      assert (Hk1 : Dict.keys tr1 = variables).
      { unfold Grammar.add_edge, Dict.index in E1. rewrite Erow in E1. injection E1 as <-.
        rewrite keys_set_existing; [exact Hk|]. apply (in_get_states tr l). eauto. }
      destruct (IH tr1 (set_add "[Final]" f) (Some "[Final]") Hp' Hk1 ltac:(now right))
        as [tr' [f' [e' [E Hf']]]].
      exists tr', f', e'. split; [exact E|]. intros q sym y.
      rewrite Hf', (add_edge_targets _ _ _ _ _ E1).
      unfold Grammar.right_linear_production, Grammar.terminal_production. cbn [In].
      rewrite !production_eq_iff, !Some_eq_iff, ?None_Some_iff, ?Some_None_iff.
      intuition (subst; auto).
    + destruct (IH tr f e Hp' Hk He) as [tr' [f' [e' [E Hf']]]].
      exists tr', f', e'. split; [exact E|]. intros q sym y. rewrite Hf'.
      unfold Grammar.right_linear_production, Grammar.terminal_production. cbn [In].
      rewrite !production_eq_iff, ?Some_eq_iff, ?None_Some_iff, ?Some_None_iff.
      intuition (subst; auto).
    + destruct (IH tr (set_add l f) e Hp' Hk He) as [tr' [f' [e' [E Hf']]]].
      exists tr', f', e'. split; [exact E|]. intros q sym y. rewrite Hf'.
      unfold Grammar.right_linear_production, Grammar.terminal_production. cbn [In].
      rewrite !production_eq_iff, ?Some_eq_iff, ?None_Some_iff, ?Some_None_iff.
      intuition (subst; auto).
Qed.

Lemma get_filter_nonempty (q : string) :
  forall (tr : Grammar.transitions_t), NoDup (Dict.keys tr) ->
  Dict.get q (filter (fun '(_, tr) => match tr with [] => false | _ => true end) tr)
  = match Dict.get q tr with Some [] => None | o => o end.
Proof.
  induction tr as [|[k row] tr IH]; intros Hnd; [reflexivity|].
  inversion Hnd as [|? ? Hk Hnd']; subst. cbn [filter].
  destruct row as [|x row]; cbn [Dict.get].
  - rewrite (IH Hnd'). destruct (String.eqb q k) eqn:E; [|reflexivity].
    apply String.eqb_eq in E. subst q.
    destruct (Dict.get k tr) eqn:Eg; [|reflexivity].
    exfalso. apply Hk. apply (in_get_states tr k). eauto.
  - destruct (String.eqb q k); [reflexivity|]. exact (IH Hnd').
Qed.

Lemma step_filtered (alphabet : list string) (tr : Grammar.transitions_t) (s : string)
  (f : list string) (q sym : string) :
  NoDup (Dict.keys tr) -> mem sym alphabet = true ->
  NFA.step (NFA.mkNFA alphabet
              (filter (fun '(_, tr) => match tr with [] => false | _ => true end) tr) s f) q sym
  = Ok (GrammarChecks.edge_targets tr q sym).
Proof.
  intros Hnd Hs. unfold NFA.step, GrammarChecks.edge_targets. cbn [NFA.delta NFA.alphabet].
  rewrite (get_filter_nonempty q tr Hnd), Hs.
  destruct (Dict.get q tr) as [[|e row]|]; cbn [negb]; [reflexivity| |reflexivity].
  destruct (Dict.get sym (e :: row)); reflexivity.
Qed.

Lemma right_linear_shape (vars terms : list string) (prods : list Grammar.RegularProduction)
  (s : option string) (g : Grammar.RegularGrammar) :
  GrammarChecks.RegularGrammar_init vars terms prods s Grammar.RIGHT_LINEAR = Some g ->
  NoDup vars ->
  exists a, Grammar.to_finite_automaton g = Ok a /\
    (forall q sym, In sym terms -> exists ts, NFA.step a q sym = Ok ts /\
       forall x, In x ts <-> In (Grammar.right_linear_production q sym x) prods \/
                 (x = "[Final]" /\ In (Grammar.terminal_production q sym Grammar.RIGHT_LINEAR) prods)) /\
    (forall v, In v (NFA.final_states a) <->
       In (Grammar.epsilon_production v Grammar.RIGHT_LINEAR) prods \/
       (v = "[Final]" /\ exists A t, In (Grammar.terminal_production A t Grammar.RIGHT_LINEAR) prods)).
Proof.
  intros H Hnd. destruct (init_checked _ _ _ _ _ _ H) as [sv [-> [-> [_ [_ Hc]]]]].
  destruct (conv_fold vars terms Grammar.RIGHT_LINEAR prods (map (fun v => (v, [])) vars) [] None Hc
              (initial_transitions_keys vars) (initial_transitions_labels terms vars)
              (or_introl eq_refl)) as [tr' [f' [e' [E [Hk [_ Hf]]]]]].
  destruct (conv_fold_edges vars terms prods (map (fun v => (v, [])) vars) [] None Hc
              (initial_transitions_keys vars) (or_introl eq_refl)) as [tr2 [f2 [e2 [E2 He2]]]].
  rewrite E in E2. injection E2 as <- <- <-.
  unfold Grammar.to_finite_automaton. simpl Grammar.productions. simpl Grammar.variables.
  rewrite E. cbn [bind]. eexists. split; [reflexivity|]. split.
  - intros q sym Hsym. eexists. split.
    + apply step_filtered; [now rewrite Hk|]. simpl. now apply mem_In.
    + intros x. rewrite He2.
      assert (H0 : GrammarChecks.edge_targets (map (fun v => (v, [])) vars) q sym = []).
      { unfold GrammarChecks.edge_targets.
        destruct (Dict.get q (map (fun v => (v, @nil (string * list string))) vars)) eqn:Eg;
          [|reflexivity].
        apply get_In, in_map_iff in Eg. destruct Eg as [y [Ey _]]. injection Ey as _ <-.
        reflexivity. }
      rewrite H0. simpl. tauto.
  - intros v. cbn [NFA.final_states]. rewrite Hf, existsb_terminal_only. simpl. split.
    + intros [[]|[Hv|[Hv [p [Hp [Ht Hr]]]]]].
      * left. apply in_map_iff in Hv. destruct Hv as [p [<- Hp]]. apply filter_In in Hp.
        destruct Hp as [Hp He]. destruct (Hc p Hp) as [_ [Hg _]].
        destruct p as [l [t|] [r|] gt]; try discriminate He. simpl in Hg |- *. now subst gt.
      * right. split; [exact Hv|]. destruct (Hc p Hp) as [_ [Hg _]].
        destruct p as [l [t|] r gt]; [|contradiction]. simpl in Hg, Hr. subst.
        exists l, t. exact Hp.
    + intros [Hv|[Hv [A [t Hp]]]].
      * right. left. apply in_map_iff. exists (Grammar.epsilon_production v Grammar.RIGHT_LINEAR).
        split; [reflexivity|]. apply filter_In. split; [exact Hv|reflexivity].
      * right. right. split; [exact Hv|]. exists (Grammar.terminal_production A t Grammar.RIGHT_LINEAR).
        split; [exact Hp|]. simpl. split; [discriminate|reflexivity].
Qed.

(** ** C9: grammar to automaton *)

(** C9: the automaton converted from [S -> 0S | 1] accepts ["1"] and
    ["001"] (indeed every [0^n 1]) and rejects ["10"] and [""]; the
    automaton converted from a grammar whose only production is
    [S -> epsilon] accepts [""] and rejects every non-empty string whose
    first character is a terminal.  The conversion of a right-linear
    grammar (accepted by [__init__], its variables a set): for every
    terminal [a], the targets of [A] on [a] are the [B] of the
    productions [A -> aB], plus the one shared synthetic final state
    ["[Final]"] when [A -> a] is a production; the final states are the
    [A] of the productions [A -> epsilon], plus ["[Final]"] exactly when
    some production [A -> a] created it. *)
Theorem grammar_to_automaton_accepts :
  Grammar.accepts Grammar.g01 "1" = Ok true /\
  Grammar.accepts Grammar.g01 "001" = Ok true /\
  Grammar.accepts Grammar.g01 "10" = Ok false /\
  Grammar.accepts Grammar.g01 "" = Ok false /\
  (forall n, Grammar.accepts Grammar.g01 (zeros n ++ "1") = Ok true) /\
  (forall vars terms s, Grammar.accepts (Grammar.g_eps vars terms s) "" = Ok true) /\
  (forall vars terms s c rest, mem (chr c) terms = true ->
     Grammar.accepts (Grammar.g_eps vars terms s) (String c rest) = Ok false) /\
  (forall vars terms prods s g,
     GrammarChecks.RegularGrammar_init vars terms prods s Grammar.RIGHT_LINEAR = Some g ->
     NoDup vars ->
     exists a, Grammar.to_finite_automaton g = Ok a /\
       (forall q sym, In sym terms -> exists ts, NFA.step a q sym = Ok ts /\
          forall x, In x ts <-> In (Grammar.right_linear_production q sym x) prods \/
                    (x = "[Final]" /\
                     In (Grammar.terminal_production q sym Grammar.RIGHT_LINEAR) prods)) /\
       (forall v, In v (NFA.final_states a) <->
          In (Grammar.epsilon_production v Grammar.RIGHT_LINEAR) prods \/
          (v = "[Final]" /\
           exists A t, In (Grammar.terminal_production A t Grammar.RIGHT_LINEAR) prods))).
Proof.
  split; [vm_compute; reflexivity|].
  split; [vm_compute; reflexivity|].
  split; [vm_compute; reflexivity|].
  split; [vm_compute; reflexivity|].
  split; [|split; [|split]].
  - intros n. unfold Grammar.accepts. rewrite g01_automaton. simpl bind.
    apply g01_loop_zeros.
  - intros vars terms s. unfold Grammar.accepts. rewrite g_eps_automaton. simpl.
    unfold NFA.accepts. simpl. unfold intersects, mem. simpl. now rewrite String.eqb_refl.
  - intros vars terms s c rest H. unfold Grammar.accepts. rewrite g_eps_automaton.
    simpl. unfold NFA.accepts. simpl. rewrite H. reflexivity.
  - exact right_linear_shape.
Qed.

Lemma grammar_to_automaton_accepts_witness :
  mem (chr "a") ["a"] = true /\
  Grammar.accepts (Grammar.g_eps ["S"] ["a"] "S") "ab" = Ok false /\
  GrammarChecks.RegularGrammar_init ["S"] ["0"; "1"] (Grammar.productions Grammar.g01)
    (Some "S") Grammar.RIGHT_LINEAR = Some Grammar.g01 /\
  NoDup ["S"] /\
  exists a ts, Grammar.to_finite_automaton Grammar.g01 = Ok a /\
    NFA.step a "S" "1" = Ok ts /\ In "[Final]" ts.
Proof.
  assert (Hinit : GrammarChecks.RegularGrammar_init ["S"] ["0"; "1"] (Grammar.productions Grammar.g01)
                    (Some "S") Grammar.RIGHT_LINEAR = Some Grammar.g01) by reflexivity.
  assert (Hnd : NoDup ["S"]) by (constructor; [simpl; tauto|constructor]).
  destruct grammar_to_automaton_accepts as [_ [_ [_ [_ [_ [_ [H Hgen]]]]]]].
  split; [reflexivity|]. split; [apply H; reflexivity|].
  split; [exact Hinit|]. split; [exact Hnd|].
  destruct (Hgen _ _ _ _ _ Hinit Hnd) as [a [Ea [Hedges _]]].
  destruct (Hedges "S" "1" ltac:(simpl; tauto)) as [ts [Ets Hts]].
  exists a, ts. split; [exact Ea|]. split; [exact Ets|].
  apply Hts. right. split; [reflexivity|]. simpl. tauto.
Defined.
